(** * ip_extract: IPv4 address / CIDR extraction and range merging

    A shallow embedding of [cybersecurity/ip_extract.py] together with the
    parts of CPython's [ipaddress] and [re] modules that the script calls,
    followed by the properties of the interval engine, of the pattern,
    of [format_range] and of [main].

    Conventions.
    - A Python [str] is a list of Unicode code points ([list N]).
    - A Python [int] is a [Z]; a range is a pair [(start, end)] of ints.
    - A raised [ValueError] (of which [AddressValueError] and
      [NetmaskValueError] are subclasses) is [None] in the functions of
      the [ipaddress] model.  An exception escaping [merge_ranges] or
      [parse_ranges] is [None] as well; those two are shown to be total. *)

From Stdlib Require Import Ascii String.
From stdpp Require Import gmap list sorting.

Local Open Scope Z_scope.

(** ** Python strings *)

Abbreviation str := (list N).

(** The code points of an ASCII literal. *)
Definition str_of (s : string) : str := N_of_ascii <$> list_ascii_of_string s.

Definition DOT : N := 46.
Definition SLASH : N := 47.
Definition COLON : N := 58.
Definition ZERO : N := 48.

(** [c in s] for a one-character [c]. *)
Definition str_contains (c : N) (s : str) : bool := existsb (N.eqb c) s.

(** [s.split(sep)] for a one-character separator: always at least one piece. *)
Fixpoint str_split (sep : N) (s : str) : list str :=
  match s with
  | [] => [[]]
  | c :: t =>
      if N.eqb c sep then [] :: str_split sep t
      else match str_split sep t with
           | piece :: pieces => (c :: piece) :: pieces
           | [] => [[c]]
           end
  end.

Definition is_ascii_digit (c : N) : bool := (48 <=? c)%N && (c <=? 57)%N.

(** [s.isascii() and s.isdigit()]: non-empty and made of the characters 0-9. *)
Definition isascii_isdigit (s : str) : bool :=
  match s with
  | [] => false
  | _ => forallb is_ascii_digit s
  end.

(** [int(s, 10)] on a string of ASCII digits.  (CPython refuses digit
    strings beyond a configurable length, 4300 by default; an octet has
    at most three digits when it gets here and the prefix of a match at
    most two.) *)
Definition int_of_digits (s : str) : Z :=
  foldl (fun acc c => acc * 10 + (Z.of_N c - 48)) 0 s.

(** [int.from_bytes(bs, 'big')]. *)
Definition from_bytes_big (bs : list Z) : Z :=
  foldl (fun acc b => acc * 256 + b) 0 bs.

(** [x.bit_length()]. *)
Definition bit_length (x : Z) : Z :=
  if x =? 0 then 0 else Z.log2 (Z.abs x) + 1.

(** ** The IPv4 half of the [ipaddress] module *)

Definition IPV4LENGTH : Z := 32.
Definition ALL_ONES : Z := 2 ^ IPV4LENGTH - 1.
Definition max_prefixlen : Z := IPV4LENGTH.

(** [IPv4Address._parse_octet]. *)
Definition parse_octet (octet_str : str) : option Z :=
  match octet_str with
  | [] => None
  | first :: _ =>
      if negb (isascii_isdigit octet_str) then None
      else if (3 <? length octet_str)%nat then None
      else if negb (bool_decide (octet_str = [ZERO])) && N.eqb first ZERO then None
      else
        let octet_int := int_of_digits octet_str in
        if 255 <? octet_int then None else Some octet_int
  end.

(** [IPv4Address._ip_int_from_string]. *)
Definition ip_int_from_string (ip_str : str) : option Z :=
  match ip_str with
  | [] => None
  | _ =>
      let octets := str_split DOT ip_str in
      if negb (length octets =? 4)%nat then None
      else from_bytes_big <$> mapM parse_octet octets
  end.

(** [_check_int_address], the guard of [IPv4Address(int)]. *)
Definition IPv4Address_of_int (address : Z) : option Z :=
  if address <? 0 then None
  else if ALL_ONES <? address then None
  else Some address.

(** [IPv4Address(str)]; the result is the address as an int. *)
Definition IPv4Address (address : str) : option Z :=
  if str_contains SLASH address then None
  else ip_int_from_string address.

(** [_ip_int_from_prefix]. *)
Definition ip_int_from_prefix (prefixlen : Z) : Z :=
  Z.lxor ALL_ONES (Z.shiftr ALL_ONES prefixlen).

(** [_prefix_from_prefix_string]. *)
Definition prefix_from_prefix_string (prefixlen_str : str) : option Z :=
  if negb (isascii_isdigit prefixlen_str) then None
  else
    let prefixlen := int_of_digits prefixlen_str in
    if negb ((0 <=? prefixlen) && (prefixlen <=? max_prefixlen)) then None
    else Some prefixlen.

(** [_count_righthand_zero_bits]. *)
Definition count_righthand_zero_bits (number bits : Z) : Z :=
  if number =? 0 then bits
  else Z.min bits (bit_length (Z.land (Z.lnot number) (number - 1))).

(** [_prefix_from_ip_int]. *)
Definition prefix_from_ip_int (ip_int : Z) : option Z :=
  let trailing_zeroes := count_righthand_zero_bits ip_int max_prefixlen in
  let prefixlen := max_prefixlen - trailing_zeroes in
  let leading_ones := Z.shiftr ip_int trailing_zeroes in
  let all_ones := Z.shiftl 1 prefixlen - 1 in
  if negb (leading_ones =? all_ones) then None else Some prefixlen.

(** [_prefix_from_ip_string]: a netmask or a hostmask in dotted-quad form. *)
Definition prefix_from_ip_string (ip_str : str) : option Z :=
  match ip_int_from_string ip_str with
  | None => None
  | Some ip_int =>
      match prefix_from_ip_int ip_int with
      | Some prefixlen => Some prefixlen
      | None => prefix_from_ip_int (Z.lxor ip_int ALL_ONES)
      end
  end.

(** The mask handed to [_make_netmask]: the int [max_prefixlen] when the
    text has no slash, the text after the slash otherwise. *)
Inductive mask_arg : Type :=
  | MaskInt (prefixlen : Z)
  | MaskStr (mask : str).

(** [IPv4Network._make_netmask]: the pair (netmask, prefix length).  The
    cache it keeps is a memo table and has no effect on the result. *)
Definition make_netmask (arg : mask_arg) : option (Z * Z) :=
  prefixlen ←
    match arg with
    | MaskInt prefixlen =>
        if negb ((0 <=? prefixlen) && (prefixlen <=? max_prefixlen)) then None
        else Some prefixlen
    | MaskStr s =>
        match prefix_from_prefix_string s with
        | Some prefixlen => Some prefixlen
        | None => prefix_from_ip_string s
        end
    end;
  netmask ← IPv4Address_of_int (ip_int_from_prefix prefixlen);
  Some (netmask, prefixlen).

(** [_split_optional_netmask] followed by [_split_addr_prefix]. *)
Definition split_addr_prefix (address : str) : option (str * mask_arg) :=
  let addr := str_split SLASH address in
  if (2 <? length addr)%nat then None
  else match addr with
       | [a; mask] => Some (a, MaskStr mask)
       | [a] => Some (a, MaskInt max_prefixlen)
       | _ => None
       end.

Record network : Type := Network {
  network_address : Z;
  netmask : Z;
  prefixlen : Z
}.

(** [IPv4Network(address, strict=False)]. *)
Definition IPv4Network (address : str) : option network :=
  '(addr, mask) ← split_addr_prefix address;
  network_address ← IPv4Address addr;
  '(netmask, prefixlen) ← make_netmask mask;
  let packed := network_address in
  network_address ←
    (if negb (Z.land packed netmask =? packed)
     then IPv4Address_of_int (Z.land packed netmask)
     else Some network_address);
  Some (Network network_address netmask prefixlen).

(** The [hostmask] and [broadcast_address] properties of a network. *)
Definition hostmask (net : network) : option Z :=
  IPv4Address_of_int (Z.lxor (netmask net) ALL_ONES).

Definition broadcast_address (net : network) : option Z :=
  hm ← hostmask net;
  IPv4Address_of_int (Z.lor (network_address net) hm).

(** [ipaddress.ip_address] and [ipaddress.ip_network(_, strict=False)].
    Both try the IPv4 class first and the IPv6 class second.  The IPv6
    constructors raise on every string with fewer than two colons
    ([len(parts) < _min_parts]); the strings the script passes are regex
    matches, which hold no colon ([findall_no_colon] below), so on them
    the result is that of the IPv4 class.  The IPv6 class is left out:
    the two definitions are those of the library on strings without a
    colon and wherever they succeed, and say nothing of a string with a
    colon that they refuse (["::ffff:1.2.3.4"] is an IPv6 address). *)
Definition ip_address (address : str) : option Z := IPv4Address address.
Definition ip_network (address : str) : option network := IPv4Network address.

(** ** The script: [merge_ranges] *)

Abbreviation range := (Z * Z)%type.

(** The loop of [merge_ranges]: [merged] is the accumulator, [ranges] what
    is left of [ranges[1:]].  [merged[-1]] on an empty list is an
    [IndexError]. *)
Fixpoint merge_loop (merged ranges : list range) : option (list range) :=
  match ranges with
  | [] => Some merged
  | (start, end_) :: ranges' =>
      match last merged with
      | None => None
      | Some (last_start, last_end) =>
          if start <=? last_end + 1
          then merge_loop
                 (<[(length merged - 1)%nat := (last_start, Z.max last_end end_)]> merged)
                 ranges'
          else merge_loop (merged ++ [(start, end_)]) ranges'
      end
  end.

Definition merge_ranges (ranges : list range) : option (list range) :=
  match ranges with
  | [] => Some []
  | first :: rest => merge_loop [first] rest
  end.

(** ** The script: the body of the [for m in matches] loop *)

(** Lines 18-24, inside the [try]: [None] is the [ValueError] that the
    [except] clause turns into [continue]. *)
Definition try_parse (m : str) : option range :=
  if str_contains SLASH m then
    net ← ip_network m;
    let start := network_address net in
    end_ ← broadcast_address net;
    Some (start, end_)
  else
    ip ← ip_address m;
    Some (ip, ip).

(** The loop itself, from the empty set. *)
Definition collect_from (ranges : gset range) (matches : list str) : gset range :=
  foldl (fun ranges m =>
           match try_parse m with
           | Some r => ranges ∪ {[r]}
           | None => ranges
           end) ranges matches.

Definition collect (matches : list str) : gset range := collect_from ∅ matches.

(** ** Canonical order and [sorted] *)

(** The order of the sort key [(t[0], t[1])]: tuples compare
    lexicographically. *)
Definition key_le (a b : range) : Prop :=
  a.1 < b.1 ∨ (a.1 = b.1 ∧ a.2 ≤ b.2).

#[global] Instance key_le_dec : RelDecision key_le.
Proof. intros a b. unfold key_le. apply _. Defined.

(** [sorted(_, key=...)].  The keys are the elements themselves and the
    order is total and antisymmetric, so the sorted list is unique
    ([sorted_unique] below) and any sorting algorithm models it. *)
Definition sorted (l : list range) : list range := merge_sort key_le l.

(** ** The regular expression and [findall] *)

(** The fragment of the pattern language that [IP_CIDR_RE] uses. *)
Inductive regex : Type :=
  | Chr (c : N)                      (* a literal character *)
  | Digit                            (* \d *)
  | Boundary                         (* \b *)
  | Cat (r1 r2 : regex)              (* r1 r2 *)
  | Rep (lo hi : nat) (r : regex).   (* greedy (?:r){lo,hi} *)

(** [\b(?:\d{1,3}\.){3}\d{1,3}(?:/\d{1,2})?\b] *)
Definition IP_CIDR_RE : regex :=
  Cat Boundary
   (Cat (Rep 3 3 (Cat (Rep 1 3 Digit) (Chr DOT)))
    (Cat (Rep 1 3 Digit)
     (Cat (Rep 0 1 (Cat (Chr SLASH) (Rep 1 2 Digit)))
      Boundary))).

(** A position in the subject: the character before it, the characters the
    current match attempt has consumed (latest first) and the text ahead. *)
Record cursor : Type := Cursor {
  cur_prev : option N;
  cur_taken : list N;
  cur_rest : list N
}.

Definition advance (c : N) (t : list N) (cur : cursor) : cursor :=
  Cursor (Some c) (c :: cur_taken cur) t.

Definition is_ascii_alnum (c : N) : bool :=
  is_ascii_digit c
  || ((65 <=? c)%N && (c <=? 90)%N)
  || ((97 <=? c)%N && (c <=? 122)%N).

(** ** Candidate strings

    The shape the pattern carves out of the text: four groups joined by
    dots, and an optional group after a slash. *)

Definition dotted (o0 o1 o2 o3 : str) : str :=
  o0 ++ DOT :: o1 ++ DOT :: o2 ++ DOT :: o3.

Definition candidate (o0 o1 o2 o3 : str) (p : option str) : str :=
  dotted o0 o1 o2 o3 ++ match p with Some q => SLASH :: q | None => [] end.

(** [cur'] is [cur] moved forward over [s]. *)
Definition moved (cur : cursor) (s : str) (cur' : cursor) : Prop :=
  cur_rest cur = s ++ cur_rest cur'
  ∧ cur_taken cur' = reverse s ++ cur_taken cur.

(** Every success of [body] consumes a text in [P] and then succeeds in
    its continuation. *)
Definition sound_body (P : str → Prop)
    (body : cursor → (cursor → option cursor) → option cursor) : Prop :=
  ∀ cur k found, body cur k = Some found →
    ∃ s cur', P s ∧ moved cur s cur' ∧ k cur' = Some found.

Section Extractor.

(** The Unicode database behind [\d] and [\w] outside ASCII: decimal
    digits (category Nd) and alphanumerics. *)
Variable unicode_decimal : N → bool.
Variable unicode_alnum : N → bool.

Definition re_digit (c : N) : bool :=
  if (c <? 128)%N then is_ascii_digit c else unicode_decimal c.

Definition re_word (c : N) : bool :=
  if (c <? 128)%N then is_ascii_alnum c || N.eqb c 95 else unicode_alnum c.

Definition word_at (c : option N) : bool :=
  match c with
  | Some c => re_word c
  | None => false
  end.

Definition at_boundary (cur : cursor) : bool :=
  xorb (word_at (cur_prev cur)) (word_at (head (cur_rest cur))).

(** A greedy bounded repetition of [body], between [lo] and [hi] times,
    followed by the rest [k] of the pattern: one more iteration is tried
    first; when everything after it fails, the repetition stops here,
    provided the minimum is reached. *)
Fixpoint rep_loop (body : cursor → (cursor → option cursor) → option cursor)
    (k : cursor → option cursor) (lo hi : nat) (cur : cursor) : option cursor :=
  match hi with
  | O => match lo with O => k cur | S _ => None end
  | S hi' =>
      match body cur (rep_loop body k (pred lo) hi') with
      | Some found => Some found
      | None => match lo with O => k cur | S _ => None end
      end
  end.

(** Backtracking matcher in continuation-passing style: [k] is the rest
    of the pattern, and the result is the position where the whole match
    ends. *)
Fixpoint run (r : regex) (cur : cursor) (k : cursor → option cursor)
    {struct r} : option cursor :=
  match r with
  | Chr c =>
      match cur_rest cur with
      | x :: t => if N.eqb x c then k (advance x t cur) else None
      | [] => None
      end
  | Digit =>
      match cur_rest cur with
      | x :: t => if re_digit x then k (advance x t cur) else None
      | [] => None
      end
  | Boundary => if at_boundary cur then k cur else None
  | Cat r1 r2 => run r1 cur (fun cur' => run r2 cur' k)
  | Rep lo hi r' => rep_loop (run r') k lo hi cur
  end.

(** The match of [IP_CIDR_RE] that starts at this position, if any. *)
Definition match_here (prev : option N) (text : str) : option str :=
  cur ← run IP_CIDR_RE (Cursor prev [] text) Some;
  Some (reverse (cur_taken cur)).

(** The left-to-right scan of [findall]: [skip] counts the characters of
    the last match still to be stepped over, so matches do not overlap.
    (The pattern has no capture group, so [findall] returns the matched
    texts, and it cannot match the empty string.) *)
Fixpoint scan (prev : option N) (text : str) (skip : nat) : list str :=
  match text with
  | [] => []
  | c :: t =>
      match skip with
      | S n => scan (Some c) t n
      | O =>
          match match_here prev text with
          | Some m => m :: scan (Some c) t (length m - 1)
          | None => scan (Some c) t 0
          end
      end
  end.

(** [IP_CIDR_RE.findall(text)] *)
Definition findall (text : str) : list str := scan None text 0.

(** ** The script: [parse_ranges] *)

(** [set_iter] is the order in which iterating the set [ranges] yields
    its elements, which Python leaves unspecified. *)
Definition parse_ranges_with (set_iter : gset range → list range)
    (text : str) (merge : bool) : option (list range) :=
  let matches := findall text in
  let ranges := collect matches in
  let sorted_ranges := sorted (set_iter ranges) in
  if merge then merge_ranges sorted_ranges else Some sorted_ranges.

Definition parse_ranges (text : str) (merge : bool) : option (list range) :=
  parse_ranges_with elements text merge.

(** ** What a match looks like *)

(** The texts a pattern can consume, position assertions aside. *)
Fixpoint lang (r : regex) (s : str) : Prop :=
  match r with
  | Chr c => s = [c]
  | Digit => ∃ x, s = [x] ∧ re_digit x = true
  | Boundary => s = []
  | Cat r1 r2 => ∃ s1 s2, s = s1 ++ s2 ∧ lang r1 s1 ∧ lang r2 s2
  | Rep lo hi r' =>
      ∃ ss, s = concat ss ∧ (lo ≤ length ss ≤ hi)%nat ∧ Forall (lang r') ss
  end.

(** [\d{1,max}] *)
Definition digit_group (max : nat) (s : str) : Prop :=
  (1 ≤ length s ≤ max)%nat ∧ Forall (λ c, re_digit c = true) s.

Definition candidate_shape (m : str) : Prop :=
  ∃ o0 o1 o2 o3 p,
    m = candidate o0 o1 o2 o3 p
    ∧ Forall (digit_group 3) [o0; o1; o2; o3]
    ∧ from_option (digit_group 2) True p.

End Extractor.

(** A Unicode database with nothing outside ASCII, for the examples. *)
Definition ascii_only : N → bool := fun _ => false.

(** ** More of Python's strings and ints *)

Definition DASH : N := 45.
Definition NEWLINE : N := 10.

(** [sep.join(pieces)] *)
Fixpoint str_join (sep : str) (pieces : list str) : str :=
  match pieces with
  | [] => []
  | [piece] => piece
  | piece :: pieces' => piece ++ sep ++ str_join sep pieces'
  end.

(** The decimal digits of [n ≥ 0] in front of [acc]; [fuel] bounds their
    number. *)
Fixpoint digits_of (fuel : nat) (n : Z) (acc : str) : str :=
  match fuel with
  | O => acc
  | S fuel' =>
      let acc' := (48 + Z.to_N (n mod 10))%N :: acc in
      if n <? 10 then acc' else digits_of fuel' (n / 10) acc'
  end.

(** [str(n)]: a number has at most as many decimal digits as bits. *)
Definition str_of_int (n : Z) : str :=
  if n <? 0 then DASH :: digits_of (S (Z.to_nat (Z.log2 (- n)))) (- n) []
  else digits_of (S (Z.to_nat (Z.log2 n))) n [].

(** The [count] low bytes of [n], most significant first. *)
Fixpoint bytes_big (count : nat) (n : Z) : list Z :=
  match count with
  | O => []
  | S count' => bytes_big count' (n / 256) ++ [n mod 256]
  end.

(** [n.to_bytes(count, 'big')]; [None] is the [OverflowError] for a
    negative [n] or one that does not fit. *)
Definition to_bytes_big (count : nat) (n : Z) : option (list Z) :=
  if n <? 0 then None
  else if 256 ^ Z.of_nat count <=? n then None
  else Some (bytes_big count n).

(** [IPv4Address._string_from_ip_int] *)
Definition string_from_ip_int (ip_int : Z) : option str :=
  bytes ← to_bytes_big 4 ip_int;
  Some (str_join [DOT] (str_of_int <$> bytes)).

(** [s.startswith('-')] *)
Definition starts_with_dash (s : str) : bool :=
  match s with
  | c :: _ => N.eqb c DASH
  | [] => false
  end.

(** ** The script: [format_range] *)

Section Renderer.

(** [str(IPv6Address(n))] for [2^32 ≤ n < 2^128], the text of an IPv6
    address; it is not modelled. *)
Variable ipv6_str : Z → str.

(** [str(ipaddress.ip_address(address))] for an int: the IPv4 class is
    tried first, the IPv6 class second, and a [ValueError] is raised when
    both refuse. *)
Definition address_str (address : Z) : option str :=
  match IPv4Address_of_int address with
  | Some ip => string_from_ip_int ip
  | None =>
      if address <? 0 then None
      else if 2 ^ 128 - 1 <? address then None
      else Some (ipv6_str address)
  end.

Definition format_range (start end_ : Z) : option str :=
  first ← address_str start;
  second ← address_str end_;
  Some (first ++ DASH :: second).

End Renderer.

(** ** The script: [main] *)

(** The [while] loop over [args[i:]], with the values of [out_path] and
    [merge] so far. *)
Fixpoint scan_args (args : list str) (out_path : option str) (merge : bool)
    : option str * bool :=
  match args with
  | [] => (out_path, merge)
  | arg :: rest =>
      if bool_decide (arg = str_of "--merge") then scan_args rest out_path true
      else
        match rest with
        | value :: rest' =>
            if bool_decide (arg = str_of "--out")
            then scan_args rest' (Some value) merge
            else scan_args rest out_path merge
        | [] => (out_path, merge)
        end
  end.

Record arguments : Type := Args {
  in_path : option str;
  out_path : option str;
  merge : bool
}.

(** Lines 57-75: what [main] reads off [sys.argv]. *)
Definition parse_args (argv : list str) : arguments :=
  let args := drop 1 argv in
  let '(in_path, args) :=
    match args with
    | first :: rest =>
        if negb (starts_with_dash first) then (Some first, rest) else (None, args)
    | [] => (None, args)
    end in
  let '(out_path, merge) := scan_args args None false in
  Args in_path out_path merge.

(** What [main] sees of its environment: the decoded text of a readable
    file; whether a path can be opened for writing and takes a content;
    and whether [sys.stdout] takes a text.  [print] raises when the
    stream cannot encode the text (a lone surrogate in [out_path] under a
    strict encoding) or is closed or broken; a run of [main] calls it
    once. *)
Record world : Type := World {
  read_text : str → option str;
  can_write : str → str → bool;
  can_print : str → bool
}.

(** How a run of [main] ends.  [Crash] is an uncaught exception;
    [written] is the file that was completed before it, if any. *)
Inductive outcome : Type :=
  | Usage (message : str)                 (* printed, then sys.exit(1) *)
  | Crash (written : option (str * str))
  | Printed (output : str)                (* print(output) *)
  | Written (path content report : str).  (* the file, then print(report) *)

Definition usage : str :=
  str_of "Usage: python ip_extract.py <input.txt> [--merge] [--out output.txt]".

(** [f"Wrote {count} ranges to {path}"] *)
Definition report (count : nat) (path : str) : str :=
  str_of "Wrote " ++ str_of_int (Z.of_nat count)
  ++ str_of " ranges to " ++ path.

Section Main.
Variable unicode_decimal : N → bool.
Variable unicode_alnum : N → bool.
Variable ipv6_str : Z → str.

Definition render (ranges : list range) : option (list str) :=
  mapM (fun r : range => format_range ipv6_str r.1 r.2) ranges.

Definition main (w : world) (argv : list str) : outcome :=
  if (length argv <? 2)%nat then
    if can_print w usage then Usage usage else Crash None
  else
    let a := parse_args argv in
    match in_path a with
    | None => Crash None
    | Some path =>
        match read_text w path with
        | None => Crash None
        | Some text =>
            match parse_ranges unicode_decimal unicode_alnum text (merge a) with
            | None => Crash None
            | Some ranges =>
                match render ranges with
                | None => Crash None
                | Some lines =>
                    let output := str_join [NEWLINE] lines in
                    match out_path a with
                    | Some (c :: p) =>
                        let content := output ++ [NEWLINE] in
                        if can_write w (c :: p) content then
                          if can_print w (report (length lines) (c :: p))
                          then Written (c :: p) content
                                 (report (length lines) (c :: p))
                          else Crash (Some (c :: p, content))
                        else Crash None
                    | _ =>
                        if can_print w output then Printed output
                        else Crash None
                    end
                end
            end
        end
    end.

End Main.

(** An environment with one readable file, where every path can be
    written and every text printed; for the examples. *)
Definition one_file (path text : str) : world :=
  World (fun p => if bool_decide (p = path) then Some text else None)
        (fun _ _ => true) (fun _ => true).

(** The run ended in an uncaught exception. *)
Definition crashes (o : outcome) : Prop := ∃ written, o = Crash written.

(** What [format_range] makes of an address range, and the output that a
    run of [main] hands to [print], or writes before a final newline. *)
Section Output.
Variable unicode_decimal : N → bool.
Variable unicode_alnum : N → bool.
Variable ipv6_str : Z → str.

Definition rendered (r : range) (line : str) : Prop :=
  ∃ first second,
    line = first ++ DASH :: second
    ∧ format_range ipv6_str r.1 r.2 = Some line
    ∧ findall unicode_decimal unicode_alnum line = [first; second]
    ∧ try_parse first = Some (r.1, r.1)
    ∧ try_parse second = Some (r.2, r.2)
    ∧ (NEWLINE ∉ line).

Definition produces (w : world) (argv : list str) (output : str) : Prop :=
  main unicode_decimal unicode_alnum ipv6_str w argv = Printed output
  ∨ ∃ path report,
      main unicode_decimal unicode_alnum ipv6_str w argv
      = Written path (output ++ [NEWLINE]) report.

End Output.

(** * Specification vocabulary *)

(** Canonical order: by start ascending, ties by end ascending. *)
Definition canonical (l : list range) : Prop := Sorted key_le l.

(** The invariant of an interval: [start ≤ end]. *)
Definition well_formed (r : range) : Prop := r.1 ≤ r.2.

(** A well-formed interval of 32-bit addresses. *)
Definition address_range (r : range) : Prop :=
  0 ≤ r.1 ∧ r.1 ≤ r.2 ∧ r.2 ≤ 2 ^ 32 - 1.

(** The integers covered by a list of closed intervals. *)
Definition covers (l : list range) (z : Z) : Prop :=
  ∃ r, r ∈ l ∧ r.1 ≤ z ≤ r.2.

(** [b] starts after the integer that follows the end of [a]. *)
Definition apart (a b : range) : Prop := a.2 + 1 < b.1.

(** No two consecutive intervals overlap or are adjacent. *)
Definition no_touching (l : list range) : Prop :=
  ∀ i a b, l !! i = Some a → l !! S i = Some b → b.1 > a.2 + 1.

(** The loop of [merge_ranges] as a recursion on the current last entry:
    what the accumulator gains from [cur] onwards. *)
Fixpoint sweep (cur : range) (ranges : list range) : list range :=
  match ranges with
  | [] => [cur]
  | (start, end_) :: ranges' =>
      if start <=? cur.2 + 1
      then sweep (cur.1, Z.max cur.2 end_) ranges'
      else cur :: sweep (start, end_) ranges'
  end.

(** A piece of a candidate: it holds neither separator. *)
Definition unbroken (s : str) : Prop := (DOT ∉ s) ∧ (SLASH ∉ s).

(** A string without a colon, as every match of the pattern is: on these
    [ip_address] and [ip_network] cannot succeed through their IPv6
    class, which the model leaves out. *)
Definition colon_free (s : str) : Prop := COLON ∉ s.

(** One to three ASCII digits whose decimal value is at most 255. *)
Definition octet_in_range (o : str) : Prop :=
  isascii_isdigit o = true ∧ (length o ≤ 3)%nat ∧ int_of_digits o ≤ 255.

Definition no_leading_zero (o : str) : Prop :=
  o = [ZERO] ∨ head o ≠ Some ZERO.

(** An octet as [_parse_octet] accepts it. *)
Definition plain_octet (o : str) : Prop :=
  octet_in_range o ∧ no_leading_zero o.

(** A prefix as [_prefix_from_prefix_string] accepts it: ASCII digits
    whose decimal value is at most 32. *)
Definition prefix_accepted (q : str) : Prop :=
  isascii_isdigit q = true ∧ int_of_digits q ≤ 32.

(** The prefix of a candidate: one or two ASCII digits, of value at most
    32. *)
Definition prefix_in_range (q : str) : Prop :=
  prefix_accepted q ∧ (length q ≤ 2)%nat.

(** octet0 * 2^24 + octet1 * 2^16 + octet2 * 2^8 + octet3 *)
Definition address_value (o0 o1 o2 o3 : str) : Z :=
  int_of_digits o0 * 2 ^ 24 + int_of_digits o1 * 2 ^ 16
  + int_of_digits o2 * 2 ^ 8 + int_of_digits o3.

(** The 32-bit mask of a prefix length: [n] one bits, then zeros. *)
Definition prefix_mask (n : Z) : Z := 2 ^ 32 - 2 ^ (32 - n).

(** The complement of a 32-bit value within 32 bits. *)
Definition complement32 (m : Z) : Z := 2 ^ 32 - 1 - m.

Definition invalid_candidate (o0 o1 o2 o3 : str) (p : option str) : Prop :=
  ¬ Forall plain_octet [o0; o1; o2; o3]
  ∨ ∃ q, p = Some q ∧ ¬ prefix_accepted q.

(** [set_iter] yields exactly the elements of the set, in some order. *)
Definition enumerates (set_iter : gset range → list range) : Prop :=
  ∀ X, set_iter X ≡ₚ elements X.

(** ** Vocabulary of the further properties *)

(** [r] lies inside [o]. *)
Definition inside (r o : range) : Prop := o.1 ≤ r.1 ∧ r.2 ≤ o.2.

(** The literal characters of a pattern. *)
Fixpoint literal_of (c : N) (r : regex) : Prop :=
  match r with
  | Chr c' => c = c'
  | Digit | Boundary => False
  | Cat r1 r2 => literal_of c r1 ∨ literal_of c r2
  | Rep _ _ r' => literal_of c r'
  end.

(** One character consumed if it passes the test [P]. *)
Definition eat (P : N → bool) (cur : cursor) : option cursor :=
  match cur_rest cur with
  | x :: t => if P x then Some (advance x t cur) else None
  | [] => None
  end.

(** The cursor with [more] appended to the text ahead. *)
Definition extend (more : str) (cur : cursor) : cursor :=
  Cursor (cur_prev cur) (cur_taken cur) (cur_rest cur ++ more).

(** Two results that agree up to [R]. *)
Definition agree (R : cursor → cursor → Prop) (x y : option cursor) : Prop :=
  option_Forall2 R x y.

(** A test eats alike at related cursors, and two continuations behave
    alike at related cursors. *)
Definition eats_alike (R : cursor → cursor → Prop) (P : N → bool) : Prop :=
  ∀ c1 c2, R c1 c2 → agree R (eat P c1) (eat P c2).

Definition alike (R : cursor → cursor → Prop)
    (k1 k2 : cursor → option cursor) : Prop :=
  ∀ c1 c2, R c1 c2 → agree R (k1 c1) (k2 c2).

(** [text = gap1 ++ m1 ++ gap2 ++ m2 ++ ... ++ tail] *)
Definition carved (text : str) (ms : list str) : Prop :=
  ∃ (gaps : list str) (tail : str),
    length gaps = length ms ∧ text = concat (zip_with app gaps ms) ++ tail.

(** One to [max] ASCII digits. *)
Definition ascii_group (max : nat) (s : str) : Prop :=
  (1 ≤ length s ≤ max)%nat ∧ Forall (λ c, is_ascii_digit c = true) s.

(** The cursor after the match attempt has gone over [s], with [t] ahead. *)
Definition after (s t : str) (cur : cursor) : cursor :=
  Cursor (match last s with Some c => Some c | None => cur_prev cur end)
         (reverse s ++ cur_taken cur) t.

Definition ascii_group_check (max : nat) (s : str) : bool :=
  (1 <=? length s)%nat && (length s <=? max)%nat && forallb is_ascii_digit s.

Section Delimiters.
Variable unicode_decimal : N → bool.
Variable unicode_alnum : N → bool.

(** A character that can neither belong to a match nor touch one without
    ending it: not a word character, not a digit, not a dot or slash. *)
Definition separator (c : N) : Prop :=
  re_word unicode_alnum c = false ∧ re_digit unicode_decimal c = false
  ∧ c ≠ DOT ∧ c ≠ SLASH.

(** What may follow a match: the end of the text or a separator. *)
Definition delimited (rest : str) : Prop :=
  ∀ x, head rest = Some x → separator x.

End Delimiters.

(** * The merge sweep *)

#[global] Instance key_le_trans : Transitive key_le.
Proof. intros [a1 a2] [b1 b2] [c1 c2]; unfold key_le; simpl; lia. Qed.

#[global] Instance key_le_total : Total key_le.
Proof. intros [a1 a2] [b1 b2]; unfold key_le; simpl; lia. Qed.

#[global] Instance key_le_antisym : AntiSymm (=) key_le.
Proof.
  intros [a1 a2] [b1 b2]; unfold key_le; simpl; intros; f_equal; lia.
Qed.

Lemma Sorted_lookup_succ {A} (R : relation A) (l : list A) :
  Sorted R l ↔ ∀ i a b, l !! i = Some a → l !! S i = Some b → R a b.
Proof.
  split.
  - induction 1 as [|x l Hl IH Hhd]; intros i a b Ha Hb; [done|].
    destruct i as [|i]; simpl in *.
    + simplify_eq. destruct Hhd; simplify_eq/=. done.
    + eauto.
  - induction l as [|x l IH]; intros H; constructor.
    + apply IH. intros i a b Ha Hb. apply (H (S i)); done.
    + destruct l as [|y l]; constructor. apply (H 0%nat); done.
Qed.

#[global] Instance apart_dec : RelDecision apart.
Proof. intros a b. unfold apart. apply _. Defined.

Lemma no_touching_Sorted l : no_touching l ↔ Sorted apart l.
Proof.
  rewrite Sorted_lookup_succ. unfold no_touching, apart.
  split; intros H i a b Ha Hb; specialize (H i a b Ha Hb); lia.
Qed.

Lemma merge_loop_sweep init cur ranges :
  merge_loop (init ++ [cur]) ranges = Some (init ++ sweep cur ranges).
Proof.
  revert init cur. induction ranges as [|[s e] ranges IH]; intros init [ls le]; simpl.
  - done.
  - rewrite last_snoc, length_app. simpl.
    replace (length init + 1 - 1)%nat with (length init + 0)%nat by lia.
    rewrite insert_app_r. simpl.
    destruct (s <=? le + 1).
    + apply IH.
    + rewrite (IH (init ++ [(ls, le)]) (s, e)). by rewrite <- (assoc_L (++)).
Qed.

Lemma merge_ranges_sweep first rest :
  merge_ranges (first :: rest) = Some (sweep first rest).
Proof. apply (merge_loop_sweep []). Qed.

Lemma sweep_head cur ranges :
  ∃ e tl, sweep cur ranges = (cur.1, e) :: tl ∧ cur.2 ≤ e.
Proof.
  revert cur. induction ranges as [|[s e] ranges IH]; intros [ls le]; simpl.
  - eauto with lia.
  - destruct (s <=? le + 1).
    + destruct (IH (ls, Z.max le e)) as (e' & tl & -> & ?). simpl in *.
      eauto with lia.
    + eauto with lia.
Qed.

Lemma sweep_apart cur ranges : Sorted apart (sweep cur ranges).
Proof.
  revert cur. induction ranges as [|[s e] ranges IH]; intros [ls le]; simpl.
  - repeat constructor.
  - destruct (Z.leb_spec s (le + 1)); [apply IH|].
    constructor; [apply IH|].
    destruct (sweep_head (s, e) ranges) as (e' & tl & -> & ?).
    constructor. unfold apart; simpl. lia.
Qed.

Lemma key_le_absorb (cur nxt x : range) :
  key_le cur nxt → key_le cur x → key_le nxt x →
  key_le (cur.1, Z.max cur.2 nxt.2) x.
Proof. destruct cur, nxt, x; unfold key_le; simpl; lia. Qed.

Lemma canonical_step cur nxt ranges :
  StronglySorted key_le (cur :: nxt :: ranges) →
  key_le cur nxt
  ∧ StronglySorted key_le (nxt :: ranges)
  ∧ StronglySorted key_le ((cur.1, Z.max cur.2 nxt.2) :: ranges).
Proof.
  intros [Hs [Hnxt Hcur]%Forall_cons]%StronglySorted_inv.
  split_and!; [done..|].
  apply StronglySorted_inv in Hs as [Hrs Hse].
  constructor; [done|].
  rewrite Forall_forall in Hcur, Hse. apply Forall_forall. intros x Hx.
  apply key_le_absorb; auto.
Qed.

Lemma sweep_canonical cur ranges :
  StronglySorted key_le (cur :: ranges) → Sorted key_le (sweep cur ranges).
Proof.
  revert cur. induction ranges as [|[s e] ranges IH]; intros [ls le] Hs; simpl.
  - repeat constructor.
  - apply canonical_step in Hs as (Hnxt & Hs & Hm).
    destruct (s <=? le + 1); [by apply IH|].
    constructor; [by apply IH|].
    destruct (sweep_head (s, e) ranges) as (e' & tl & -> & ?).
    constructor. revert Hnxt. unfold key_le; simpl in *. lia.
Qed.

Lemma covers_cons r l z : covers (r :: l) z ↔ r.1 ≤ z ≤ r.2 ∨ covers l z.
Proof.
  unfold covers. split.
  - intros (x & [->|Hx]%elem_of_cons & Hz); eauto.
  - intros [Hz|(x & Hx & Hz)]; [exists r|exists x]; split; auto; by constructor.
Qed.

Lemma sweep_covers cur ranges z :
  StronglySorted key_le (cur :: ranges) →
  covers (sweep cur ranges) z ↔ covers (cur :: ranges) z.
Proof.
  revert cur. induction ranges as [|[s e] ranges IH]; intros [ls le] Hs; simpl.
  - done.
  - apply canonical_step in Hs as (Hnxt & Hs & Hm).
    destruct (Z.leb_spec s (le + 1)).
    + rewrite IH by done.
      rewrite !covers_cons. simpl.
      assert (ls ≤ z ≤ Z.max le e ↔ ls ≤ z ≤ le ∨ s ≤ z ≤ e) as ->
        by (revert Hnxt; unfold key_le; simpl; lia).
      tauto.
    + rewrite (covers_cons (ls, le) (sweep _ _)), IH by done.
      rewrite !covers_cons. done.
Qed.

Lemma sweep_fixed cur ranges :
  Sorted apart (cur :: ranges) → sweep cur ranges = cur :: ranges.
Proof.
  revert cur. induction ranges as [|[s e] ranges IH]; intros [ls le] Hs; simpl.
  - done.
  - apply Sorted_inv in Hs as [Hs Hhd]. apply HdRel_inv in Hhd.
    unfold apart in Hhd; simpl in Hhd.
    destruct (Z.leb_spec s (le + 1)); [lia|]. by rewrite IH.
Qed.

Lemma sweep_Forall (P : range → Prop) cur ranges :
  (∀ a b, P a → P b → P (a.1, Z.max a.2 b.2)) →
  P cur → Forall P ranges → Forall P (sweep cur ranges).
Proof.
  intros Hmax. revert cur.
  induction ranges as [|[s e] ranges IH]; intros cur Hcur Hall; simpl.
  - by constructor.
  - apply Forall_cons in Hall as [Hnxt Hall].
    destruct (s <=? cur.2 + 1).
    + apply IH; [|done]. by apply (Hmax cur (s, e)).
    + constructor; [done|]. by apply IH.
Qed.

Lemma well_formed_max (a b : range) :
  well_formed a → well_formed b → well_formed (a.1, Z.max a.2 b.2).
Proof. unfold well_formed; simpl; lia. Qed.

Lemma apart_StronglySorted l :
  Sorted apart l → Forall well_formed l → StronglySorted apart l.
Proof.
  induction 1 as [|x l Hl IH Hhd]; intros Hwf; constructor.
  - apply IH. by eapply Forall_inv_tail.
  - apply Forall_cons in Hwf as [Hx Hwf]. specialize (IH Hwf).
    destruct Hhd as [|y l Hxy]; [constructor|].
    apply StronglySorted_inv in IH as [_ Hy].
    apply Forall_cons in Hwf as [Hwy _].
    constructor; [done|].
    eapply Forall_impl; [exact Hy|].
    intros z. unfold apart, well_formed in *. lia.
Qed.

Lemma apart_trichotomy l r r' :
  StronglySorted apart l → r ∈ l → r' ∈ l → r = r' ∨ apart r r' ∨ apart r' r.
Proof.
  induction 1 as [|x l Hl IH Hx]; intros Hr Hr'.
  - by apply not_elem_of_nil in Hr.
  - rewrite Forall_forall in Hx.
    apply elem_of_cons in Hr as [->|Hr], Hr' as [->|Hr']; auto.
Qed.

(** A list of closed intervals that reaches every start of a separated
    list without reaching the integer just after any of its ends has at
    least as many members. *)
Lemma separated_cover_length out cover :
  StronglySorted apart out → Forall well_formed out →
  (∀ r, r ∈ out → covers cover r.1) →
  (∀ r, r ∈ out → ¬ covers cover (r.2 + 1)) →
  (length out ≤ length cover)%nat.
Proof.
  intros Hs. revert cover.
  induction Hs as [|r out Hs IH Hr]; intros cover Hwf Hin Hout; simpl; [lia|].
  apply Forall_cons in Hwf as [Hwr Hwf]. rewrite Forall_forall in Hr.
  destruct (Hin r) as (x & Hx & Hxr); [by left|].
  apply list_elem_of_split in Hx as (c1 & c2 & ->).
  assert (length out ≤ length (c1 ++ c2))%nat as Hlen.
  { apply IH; [done| |].
    - intros r' Hr'. destruct (Hin r') as (y & Hy & Hyr); [by right|].
      exists y. split; [|done].
      rewrite elem_of_app in Hy |- *. rewrite elem_of_cons in Hy.
      destruct Hy as [?|[->|?]]; auto.
      exfalso. apply (Hout r); [by left|].
      exists x. split; [apply elem_of_app; right; by left|].
      specialize (Hr r' Hr'). unfold apart, well_formed in *. lia.
    - intros r' Hr' (y & Hy & Hyr). apply (Hout r'); [by right|].
      exists y. split; [|done].
      rewrite elem_of_app in Hy |- *. rewrite elem_of_cons. tauto. }
  rewrite length_app in *. simpl. lia.
Qed.

Lemma separated_gap_free out r :
  StronglySorted apart out → Forall well_formed out →
  r ∈ out → ¬ covers out (r.2 + 1).
Proof.
  intros Hs Hwf Hr (r' & Hr' & Hz).
  rewrite Forall_forall in Hwf.
  pose proof (Hwf r Hr). pose proof (Hwf r' Hr').
  destruct (apart_trichotomy out r r' Hs Hr Hr') as [->|[?|?]];
    unfold apart, well_formed in *; lia.
Qed.

(** C1. On a list of ranges in canonical order without duplicates,
    [merge_ranges] returns a list that is again in canonical order, in
    which every entry starts after the integer following the end of the
    entry before it ([result[i+1].start > result[i].end + 1]), and which
    covers exactly the integers the input covers; its entries are
    intervals ([start ≤ end]) when those of the input are. *)
Theorem merge_ranges_invariant (ranges : list range) :
  canonical ranges → NoDup ranges →
  ∃ out, merge_ranges ranges = Some out
    ∧ canonical out
    ∧ no_touching out
    ∧ (∀ z, covers out z ↔ covers ranges z)
    ∧ (Forall well_formed ranges → Forall well_formed out).
Proof.
  intros Hc _. destruct ranges as [|first rest].
  - exists []. split_and!; [done|constructor| |done|done].
    intros i a b Ha. by rewrite lookup_nil in Ha.
  - apply (Sorted_StronglySorted key_le) in Hc.
    exists (sweep first rest). split_and!.
    + apply merge_ranges_sweep.
    + by apply sweep_canonical.
    + apply no_touching_Sorted, sweep_apart.
    + intros z. by apply sweep_covers.
    + intros [? ?]%Forall_cons. apply sweep_Forall; auto using well_formed_max.
Qed.

(** C2. On a canonical, duplicate-free list of intervals (each with
    [start ≤ end]), the result of [merge_ranges] is a smallest cover: it
    is a list of intervals that covers exactly the integers the input
    covers, and no list of closed integer intervals that covers the same
    integers has fewer members. *)
Theorem merge_ranges_minimal (ranges : list range) :
  canonical ranges → NoDup ranges → Forall well_formed ranges →
  ∃ out, merge_ranges ranges = Some out
    ∧ Forall well_formed out
    ∧ (∀ z, covers out z ↔ covers ranges z)
    ∧ ∀ cover : list range,
        (∀ z, covers cover z ↔ covers ranges z) →
        (length out ≤ length cover)%nat.
Proof.
  intros Hc _ Hwf. destruct ranges as [|first rest].
  - exists []. split_and!; [done..|]. intros; simpl; lia.
  - apply (Sorted_StronglySorted key_le) in Hc.
    exists (sweep first rest). split; [apply merge_ranges_sweep|].
    apply Forall_cons in Hwf as [Hw1 Hwf].
    assert (Forall well_formed (sweep first rest)) as Hwo
      by (apply sweep_Forall; auto using well_formed_max).
    split; [exact Hwo|].
    split; [intros z; by apply (sweep_covers first rest)|].
    intros cover Hcover.
    assert (StronglySorted apart (sweep first rest)) as Hso
      by (apply apart_StronglySorted; [apply sweep_apart|done]).
    apply separated_cover_length; [done..| |].
    + intros r Hr. apply Hcover, (sweep_covers first rest); [done|].
      exists r. split; [done|]. rewrite Forall_forall in Hwo.
      specialize (Hwo r Hr). unfold well_formed in Hwo. lia.
    + intros r Hr Hz. apply Hcover, (sweep_covers first rest) in Hz; [|done].
      by apply (separated_gap_free _ r Hso Hwo).
Qed.

(** C3. [merge_ranges] is idempotent: a canonical list in which no two
    consecutive ranges overlap or are adjacent is returned unchanged,
    element for element. *)
Theorem merge_ranges_idempotent (ranges : list range) :
  canonical ranges → no_touching ranges → merge_ranges ranges = Some ranges.
Proof.
  intros _ Hm. destruct ranges as [|first rest]; [done|].
  rewrite merge_ranges_sweep. f_equal.
  by apply sweep_fixed, no_touching_Sorted.
Qed.

(** * Parsing one candidate *)

Lemma Forall_four {A} (P : A → Prop) a b c d :
  Forall P [a; b; c; d] ↔ P a ∧ P b ∧ P c ∧ P d.
Proof. rewrite !Forall_cons, Forall_nil. tauto. Qed.

(** ** Strings *)
Lemma str_contains_elem c s : str_contains c s = true ↔ c ∈ s.
Proof.
  unfold str_contains. rewrite existsb_exists. split.
  - intros (x & Hx%list_elem_of_In & ->%N.eqb_eq). done.
  - intros Hc. exists c. split; [by apply list_elem_of_In|apply N.eqb_refl].
Qed.

Lemma str_contains_false c s : c ∉ s → str_contains c s = false.
Proof.
  intros Hc. destruct (str_contains c s) eqn:E; [|done].
  by apply str_contains_elem in E.
Qed.

Lemma str_split_whole sep s : sep ∉ s → str_split sep s = [s].
Proof.
  induction s as [|c s IH]; intros Hs; simpl; [done|].
  apply not_elem_of_cons in Hs as [Hc Hs].
  destruct (N.eqb_spec c sep) as [->|_]; [done|]. by rewrite IH.
Qed.

Lemma str_split_app sep a b :
  sep ∉ a → str_split sep (a ++ sep :: b) = a :: str_split sep b.
Proof.
  induction a as [|c a IH]; intros Ha; simpl.
  - by rewrite N.eqb_refl.
  - apply not_elem_of_cons in Ha as [Hc Ha].
    destruct (N.eqb_spec c sep) as [->|_]; [done|]. by rewrite IH.
Qed.

Lemma str_split_dotted o0 o1 o2 o3 :
  DOT ∉ o0 → DOT ∉ o1 → DOT ∉ o2 → DOT ∉ o3 →
  str_split DOT (dotted o0 o1 o2 o3) = [o0; o1; o2; o3].
Proof.
  intros. unfold dotted.
  rewrite !str_split_app by done. by rewrite str_split_whole.
Qed.

Lemma not_elem_of_join (c sep : N) (a b : str) :
  c ∉ a → c ≠ sep → c ∉ b → c ∉ a ++ sep :: b.
Proof.
  intros Ha Hsep Hb [?|[?|?]%elem_of_cons]%elem_of_app; done.
Qed.

Lemma dotted_no_slash o0 o1 o2 o3 :
  SLASH ∉ o0 → SLASH ∉ o1 → SLASH ∉ o2 → SLASH ∉ o3 →
  SLASH ∉ dotted o0 o1 o2 o3.
Proof. intros. unfold dotted. repeat apply not_elem_of_join; done. Qed.

Lemma is_ascii_digit_range c : is_ascii_digit c = true ↔ (48 ≤ c ≤ 57)%N.
Proof. unfold is_ascii_digit. rewrite andb_true_iff, !N.leb_le. done. Qed.

Lemma isascii_isdigit_Forall s :
  isascii_isdigit s = true ↔ s ≠ [] ∧ Forall (λ c, (48 ≤ c ≤ 57)%N) s.
Proof.
  unfold isascii_isdigit.
  destruct s as [|c s]; [split; [done|intros [? _]; done]|].
  rewrite forallb_forall, Forall_forall. split.
  - intros H. split; [done|]. intros x Hx%list_elem_of_In.
    by apply is_ascii_digit_range, H.
  - intros [_ H] x Hx%list_elem_of_In. by apply is_ascii_digit_range, H.
Qed.

Lemma digits_unbroken s : isascii_isdigit s = true → unbroken s.
Proof.
  intros [_ H]%isascii_isdigit_Forall. rewrite Forall_forall in H.
  split; intros Hc%H; unfold DOT, SLASH in Hc; lia.
Qed.

Lemma int_of_digits_nonneg s : isascii_isdigit s = true → 0 ≤ int_of_digits s.
Proof.
  intros [_ H]%isascii_isdigit_Forall. unfold int_of_digits.
  assert (∀ acc, 0 ≤ acc →
    0 ≤ foldl (λ acc c, acc * 10 + (Z.of_N c - 48)) acc s) as Hacc.
  { induction H as [|c s Hc _ IH]; intros acc Hacc; simpl; [done|].
    apply IH. lia. }
  by apply Hacc.
Qed.

(** ** Octets *)
Lemma parse_octet_plain o : plain_octet o → parse_octet o = Some (int_of_digits o).
Proof.
  intros [(Hd & Hlen & Hv) Hz]. unfold parse_octet.
  destruct o as [|c o]; [done|]. rewrite Hd. simpl negb. cbv iota.
  destruct (Nat.ltb_spec 3 (length (c :: o))); [lia|].
  destruct (Z.ltb_spec 255 (int_of_digits (c :: o))); [lia|].
  destruct Hz as [Hz|Hz].
  - by rewrite bool_decide_eq_true_2.
  - destruct (N.eqb_spec c ZERO) as [->|_]; [done|]. by rewrite andb_false_r.
Qed.

Lemma parse_octet_Some o v :
  parse_octet o = Some v ↔ plain_octet o ∧ v = int_of_digits o.
Proof.
  split; [|intros [H ->]; by apply parse_octet_plain].
  unfold parse_octet, plain_octet, octet_in_range, no_leading_zero.
  destruct o as [|c o]; [done|].
  destruct (isascii_isdigit (c :: o)); [|done]. simpl negb. cbv iota.
  destruct (Nat.ltb_spec 3 (length (c :: o))); [done|].
  destruct (bool_decide_reflect (c :: o = [ZERO])) as [Hz|Hz];
    destruct (N.eqb_spec c ZERO) as [Hc|Hc]; simpl negb; simpl andb; cbv iota;
    try done;
    destruct (Z.ltb_spec 255 (int_of_digits (c :: o))); try done;
    intros [= <-]; split_and!; auto.
  right. simpl. congruence.
Qed.

Lemma plain_octet_iff o : plain_octet o ↔ is_Some (parse_octet o).
Proof.
  split.
  - intros H. rewrite (parse_octet_plain o H). by eexists.
  - intros [v [H _]%parse_octet_Some]. done.
Qed.

Lemma parse_octet_bounds o v : parse_octet o = Some v → 0 ≤ v ≤ 255.
Proof.
  intros [[(Hd & _ & ?) _] ->]%parse_octet_Some.
  split; [by apply int_of_digits_nonneg|done].
Qed.

(** ** Bitwise bounds *)
Lemma land_below a m : 0 ≤ a → 0 ≤ Z.land a m ≤ a.
Proof.
  intros Ha. apply Z.ldiff_le; [done|].
  apply Z.bits_inj'. intros i Hi.
  rewrite Z.ldiff_spec, Z.land_spec, Z.bits_0.
  by destruct (Z.testbit a i), (Z.testbit m i).
Qed.

Lemma lor_above a b : 0 ≤ a → 0 ≤ b → a ≤ Z.lor a b.
Proof.
  intros Ha Hb.
  apply (Z.ldiff_le a (Z.lor a b)); [by apply Z.lor_nonneg|].
  apply Z.bits_inj'. intros i Hi.
  rewrite Z.ldiff_spec, Z.lor_spec, Z.bits_0.
  by destruct (Z.testbit a i), (Z.testbit b i).
Qed.

Lemma ldiff_ALL_ONES a : 0 ≤ a ≤ ALL_ONES ↔ 0 ≤ a ∧ Z.ldiff a ALL_ONES = 0.
Proof.
  change ALL_ONES with (Z.ones 32). split.
  - intros [Ha Hle]. split; [done|].
    destruct (decide (a = 0)) as [->|]; [done|].
    apply Z.ldiff_ones_r_low; [done|].
    apply Z.log2_lt_pow2; [lia|]. change (Z.ones 32) with (2 ^ 32 - 1) in Hle. lia.
  - intros [Ha Hd]. by apply Z.ldiff_le.
Qed.

Lemma lor_below a b :
  0 ≤ a ≤ ALL_ONES → 0 ≤ b ≤ ALL_ONES → 0 ≤ Z.lor a b ≤ ALL_ONES.
Proof.
  intros [Ha Ha']%ldiff_ALL_ONES [Hb Hb']%ldiff_ALL_ONES.
  apply ldiff_ALL_ONES. split; [by apply Z.lor_nonneg|].
  apply Z.bits_inj'. intros i Hi.
  apply (f_equal (λ x, Z.testbit x i)) in Ha', Hb'.
  rewrite Z.ldiff_spec, Z.bits_0 in Ha', Hb'.
  rewrite Z.ldiff_spec, Z.lor_spec, Z.bits_0.
  by destruct (Z.testbit a i), (Z.testbit b i), (Z.testbit ALL_ONES i).
Qed.

Lemma land_ALL_ONES a : 0 ≤ a ≤ ALL_ONES → Z.land a ALL_ONES = a.
Proof.
  intros [Ha Hle]. change ALL_ONES with (Z.ones 32) in *.
  rewrite Z.land_ones by done. apply Z.mod_small.
  change (Z.ones 32) with (2 ^ 32 - 1) in Hle. lia.
Qed.

Lemma prefix_cases (P : Z → Prop) :
  (∀ k : nat, (k ≤ 32)%nat → P (Z.of_nat k)) → ∀ n, 0 ≤ n ≤ 32 → P n.
Proof.
  intros H n Hn. rewrite <- (Z2Nat.id n) by lia. apply H. lia.
Qed.

Ltac each_prefix n :=
  pattern n; apply prefix_cases; [|done];
  let k := fresh "k" in let Hk := fresh "Hk" in
  intros k Hk; do 33 (destruct k as [|k]; [vm_compute; try done|]); lia.

Lemma ip_int_from_prefix_mask n :
  0 ≤ n ≤ 32 → ip_int_from_prefix n = prefix_mask n.
Proof. intros Hn. each_prefix n. Qed.

Lemma prefix_mask_bounds n : 0 ≤ n ≤ 32 → 0 ≤ prefix_mask n ≤ ALL_ONES.
Proof.
  intros Hn. each_prefix n.
Qed.

Lemma prefix_mask_complement n :
  0 ≤ n ≤ 32 →
  Z.lxor (prefix_mask n) ALL_ONES = complement32 (prefix_mask n).
Proof. intros Hn. each_prefix n. Qed.

(** ** Addresses *)
Lemma from_bytes_big_4 v0 v1 v2 v3 :
  from_bytes_big [v0; v1; v2; v3] = v0 * 2 ^ 24 + v1 * 2 ^ 16 + v2 * 2 ^ 8 + v3.
Proof. unfold from_bytes_big. simpl. lia. Qed.

Lemma dotted_not_nil o0 o1 o2 o3 : dotted o0 o1 o2 o3 ≠ [].
Proof. unfold dotted. by destruct o0. Qed.

Lemma ip_int_from_string_dotted o0 o1 o2 o3 :
  DOT ∉ o0 → DOT ∉ o1 → DOT ∉ o2 → DOT ∉ o3 →
  ip_int_from_string (dotted o0 o1 o2 o3)
  = from_bytes_big <$> mapM parse_octet [o0; o1; o2; o3].
Proof.
  intros. unfold ip_int_from_string.
  rewrite str_split_dotted by done.
  pose proof (dotted_not_nil o0 o1 o2 o3).
  by destruct (dotted o0 o1 o2 o3).
Qed.

Lemma ip_int_from_string_bounds s v :
  ip_int_from_string s = Some v → 0 ≤ v ≤ ALL_ONES.
Proof.
  unfold ip_int_from_string. destruct s as [|c s]; [done|].
  destruct (Nat.eqb_spec (length (str_split DOT (c :: s))) 4) as [Hlen|];
    [|done]. simpl negb. cbv iota.
  intros (vs & Hvs & ->)%fmap_Some.
  rewrite (length_mapM _ _ _ Hvs) in Hlen.
  apply mapM_Some in Hvs.
  assert (Forall (λ v, 0 ≤ v ≤ 255) vs) as Hb.
  { clear -Hvs. induction Hvs; constructor; eauto using parse_octet_bounds. }
  destruct vs as [|v0 [|v1 [|v2 [|v3 [|]]]]]; try done.
  rewrite from_bytes_big_4.
  apply Forall_cons in Hb as [? Hb]. apply Forall_cons in Hb as [? Hb].
  apply Forall_cons in Hb as [? Hb]. apply Forall_cons in Hb as [? Hb].
  change ALL_ONES with (2 ^ 32 - 1). lia.
Qed.

Lemma IPv4Address_bounds s v : IPv4Address s = Some v → 0 ≤ v ≤ ALL_ONES.
Proof.
  unfold IPv4Address. destruct (str_contains SLASH s); [done|].
  apply ip_int_from_string_bounds.
Qed.

Lemma IPv4Address_of_int_Some a :
  0 ≤ a ≤ ALL_ONES → IPv4Address_of_int a = Some a.
Proof.
  intros [? ?]. unfold IPv4Address_of_int.
  destruct (Z.ltb_spec a 0); [lia|]. by destruct (Z.ltb_spec ALL_ONES a); [lia|].
Qed.

Lemma IPv4Address_of_int_bounds a v :
  IPv4Address_of_int a = Some v → v = a ∧ 0 ≤ a ≤ ALL_ONES.
Proof.
  unfold IPv4Address_of_int.
  destruct (Z.ltb_spec a 0); [done|]. destruct (Z.ltb_spec ALL_ONES a); [done|].
  intros [= <-]. lia.
Qed.

Lemma plain_octets_parse o0 o1 o2 o3 :
  Forall plain_octet [o0; o1; o2; o3] →
  mapM parse_octet [o0; o1; o2; o3] = Some (int_of_digits <$> [o0; o1; o2; o3]).
Proof.
  intros H. apply mapM_Some, Forall2_fmap_r, Forall_Forall2_diag.
  eapply Forall_impl; [exact H|]. apply parse_octet_plain.
Qed.

Lemma plain_octet_unbroken o : plain_octet o → unbroken o.
Proof. intros [[Hd _] _]. by apply digits_unbroken. Qed.

Lemma IPv4Address_dotted o0 o1 o2 o3 :
  Forall plain_octet [o0; o1; o2; o3] →
  IPv4Address (dotted o0 o1 o2 o3) = Some (address_value o0 o1 o2 o3).
Proof.
  intros H. pose proof (Forall_impl _ _ _ H plain_octet_unbroken) as Hu.
  apply Forall_cons in Hu as [[? ?] Hu]. apply Forall_cons in Hu as [[? ?] Hu].
  apply Forall_cons in Hu as [[? ?] Hu]. apply Forall_cons in Hu as [[? ?] Hu].
  unfold IPv4Address.
  rewrite str_contains_false by by apply dotted_no_slash.
  rewrite ip_int_from_string_dotted by done.
  rewrite plain_octets_parse by done. simpl. by rewrite from_bytes_big_4.
Qed.

Lemma IPv4Address_dotted_None o0 o1 o2 o3 :
  Forall unbroken [o0; o1; o2; o3] →
  ¬ Forall plain_octet [o0; o1; o2; o3] →
  IPv4Address (dotted o0 o1 o2 o3) = None.
Proof.
  intros Hu Hbad.
  apply Forall_cons in Hu as [[? ?] Hu]. apply Forall_cons in Hu as [[? ?] Hu].
  apply Forall_cons in Hu as [[? ?] Hu]. apply Forall_cons in Hu as [[? ?] Hu].
  unfold IPv4Address.
  rewrite str_contains_false by by apply dotted_no_slash.
  rewrite ip_int_from_string_dotted by done.
  apply fmap_None, mapM_None.
  apply not_Forall_Exists in Hbad; [|intros o; unfold Decision; destruct (parse_octet o) eqn:E; [left|right]].
  - eapply Exists_impl; [exact Hbad|]. intros o Ho. simpl in Ho.
    destruct (parse_octet o) eqn:E; [|done].
    apply parse_octet_Some in E as [? _]. done.
  - by apply parse_octet_Some in E as [? _].
  - intros Hp. apply parse_octet_plain in Hp. congruence.
Qed.

(** ** Netmasks *)
Lemma prefix_from_prefix_string_Some q n :
  prefix_from_prefix_string q = Some n ↔ prefix_accepted q ∧ n = int_of_digits q.
Proof.
  unfold prefix_from_prefix_string, prefix_accepted, max_prefixlen, IPV4LENGTH.
  destruct (isascii_isdigit q) eqn:Hd; simpl negb; cbv iota;
    [|split; [done|intros [[? _] _]; done]].
  pose proof (int_of_digits_nonneg q Hd).
  destruct (Z.leb_spec 0 (int_of_digits q)); [|lia].
  destruct (Z.leb_spec (int_of_digits q) 32); simpl.
  - split; [intros [= <-]; done|]. by intros [_ ->].
  - split; [done|]. intros [[_ ?] _]. lia.
Qed.

Lemma prefix_from_ip_string_unbroken q : DOT ∉ q → prefix_from_ip_string q = None.
Proof.
  intros Hq. unfold prefix_from_ip_string, ip_int_from_string.
  rewrite str_split_whole by done. by destruct q.
Qed.

Lemma make_netmask_prefix q :
  prefix_accepted q →
  make_netmask (MaskStr q)
  = Some (prefix_mask (int_of_digits q), int_of_digits q).
Proof.
  intros Hq. pose proof (int_of_digits_nonneg q (proj1 Hq)). destruct Hq as [Hd Hle].
  unfold make_netmask.
  rewrite (proj2 (prefix_from_prefix_string_Some q _)) by done. simpl.
  rewrite ip_int_from_prefix_mask by done.
  rewrite IPv4Address_of_int_Some by by apply prefix_mask_bounds. done.
Qed.

Lemma make_netmask_None q :
  DOT ∉ q → ¬ prefix_accepted q → make_netmask (MaskStr q) = None.
Proof.
  intros Hdot Hq. unfold make_netmask.
  destruct (prefix_from_prefix_string q) eqn:E.
  - apply prefix_from_prefix_string_Some in E as [? _]. done.
  - by rewrite prefix_from_ip_string_unbroken.
Qed.

Lemma make_netmask_bounds arg m n :
  make_netmask arg = Some (m, n) → 0 ≤ m ≤ ALL_ONES.
Proof.
  unfold make_netmask. intros (n' & _ & (m' & Hm & [= <- <-])%bind_Some)%bind_Some.
  by apply IPv4Address_of_int_bounds in Hm as [-> ?].
Qed.

(** ** Candidates *)
Lemma split_addr_prefix_slash a q :
  SLASH ∉ a → SLASH ∉ q → split_addr_prefix (a ++ SLASH :: q) = Some (a, MaskStr q).
Proof.
  intros Ha Hq. unfold split_addr_prefix.
  by rewrite str_split_app, str_split_whole.
Qed.

Lemma try_parse_address a :
  SLASH ∉ a → try_parse a = ip ← IPv4Address a; Some (ip, ip).
Proof. intros Ha. unfold try_parse. by rewrite str_contains_false. Qed.

Lemma try_parse_network a q addr mask n :
  SLASH ∉ a → SLASH ∉ q →
  IPv4Address a = Some addr →
  make_netmask (MaskStr q) = Some (mask, n) →
  try_parse (a ++ SLASH :: q)
  = Some (Z.land addr mask, Z.lor (Z.land addr mask) (Z.lxor mask ALL_ONES)).
Proof.
  intros Ha Hq Haddr Hmask. unfold try_parse.
  rewrite (proj2 (str_contains_elem _ _)) by (apply elem_of_app; right; by left).
  unfold ip_network, IPv4Network.
  rewrite split_addr_prefix_slash by done. simpl.
  rewrite Haddr. simpl. rewrite Hmask. simpl.
  pose proof (IPv4Address_bounds _ _ Haddr) as Hb.
  pose proof (make_netmask_bounds _ _ _ Hmask) as Hm.
  pose proof (land_below addr mask (proj1 Hb)) as Hl.
  assert ((if negb (Z.land addr mask =? addr)
           then IPv4Address_of_int (Z.land addr mask) else Some addr)
          = Some (Z.land addr mask)) as ->.
  { destruct (Z.eqb_spec (Z.land addr mask) addr) as [->|_]; [done|].
    simpl. apply IPv4Address_of_int_Some. lia. }
  simpl. unfold broadcast_address, hostmask. simpl.
  assert (0 ≤ Z.lxor mask ALL_ONES ≤ ALL_ONES) as Hh.
  { apply ldiff_ALL_ONES. split; [apply Z.lxor_nonneg; change ALL_ONES with (2 ^ 32 - 1); lia|].
    apply Z.bits_inj'. intros i Hi.
    rewrite Z.ldiff_spec, Z.lxor_spec, Z.bits_0.
    destruct Hm as [Hm1 Hm2].
    assert (Z.ldiff mask ALL_ONES = 0) as Hz by by apply ldiff_ALL_ONES.
    apply (f_equal (λ x, Z.testbit x i)) in Hz.
    rewrite Z.ldiff_spec, Z.bits_0 in Hz.
    by destruct (Z.testbit mask i), (Z.testbit ALL_ONES i). }
  rewrite IPv4Address_of_int_Some by done. simpl.
  rewrite IPv4Address_of_int_Some by (apply lor_below; lia). done.
Qed.

Lemma try_parse_network_None a q :
  SLASH ∉ a → SLASH ∉ q →
  IPv4Address a = None ∨ make_netmask (MaskStr q) = None →
  try_parse (a ++ SLASH :: q) = None.
Proof.
  intros Ha Hq Hbad. unfold try_parse.
  rewrite (proj2 (str_contains_elem _ _)) by (apply elem_of_app; right; by left).
  unfold ip_network, IPv4Network.
  rewrite split_addr_prefix_slash by done. simpl.
  destruct Hbad as [->|Hm]; [done|].
  destruct (IPv4Address a); [|done]. simpl. by rewrite Hm.
Qed.

Lemma try_parse_address_range m r : try_parse m = Some r → address_range r.
Proof.
  unfold try_parse, address_range. change (2 ^ 32 - 1) with ALL_ONES.
  destruct r as [s e]. destruct (str_contains SLASH m).
  - intros (net & Hnet & H)%bind_Some. cbv zeta in H.
    apply bind_Some in H as (e' & He & [= <- <-]). simpl.
    unfold ip_network, IPv4Network in Hnet.
    apply bind_Some in Hnet as ([a mask] & _ & Hnet).
    apply bind_Some in Hnet as (addr & Haddr%IPv4Address_bounds & Hnet).
    apply bind_Some in Hnet as ([nm n] & _ & Hnet).
    apply bind_Some in Hnet as (start & Hstart & [= <-]).
    unfold broadcast_address, hostmask in He. simpl in *.
    apply bind_Some in He as (hm & [-> Hhm]%IPv4Address_of_int_bounds
                                 & [-> He]%IPv4Address_of_int_bounds).
    assert (0 ≤ start ≤ ALL_ONES) as Hs.
    { destruct (negb (Z.land addr nm =? addr)).
      - by apply IPv4Address_of_int_bounds in Hstart as [-> ?].
      - by injection Hstart as <-. }
    split_and!; [lia| |lia]. apply lor_above; lia.
  - intros (ip & Hip%IPv4Address_bounds & [= <-])%bind_Some. simpl. lia.
Qed.

Lemma elem_of_collect_from X ms r :
  r ∈ collect_from X ms ↔ r ∈ X ∨ ∃ m, m ∈ ms ∧ try_parse m = Some r.
Proof.
  revert X. induction ms as [|m ms IH]; intros X; simpl.
  - split; [by left|]. intros [?|(m & ?%not_elem_of_nil & _)]; done.
  - rewrite IH. destruct (try_parse m) as [r'|] eqn:E.
    + rewrite elem_of_union, elem_of_singleton. split.
      * intros [[?| ->]|(m' & ? & ?)]; [by left| |].
        -- right. exists m. split; [by left|done].
        -- right. exists m'. split; [by right|done].
      * intros [?|(m' & [->|?]%elem_of_cons & ?)]; [by left; left| |].
        -- left; right. congruence.
        -- right. by exists m'.
    + split.
      * intros [?|(m' & ? & ?)]; [by left|]. right. exists m'. split; [by right|done].
      * intros [?|(m' & [->|?]%elem_of_cons & ?)]; [by left|congruence|].
        right. by exists m'.
Qed.

Lemma elem_of_collect ms r :
  r ∈ collect ms ↔ ∃ m, m ∈ ms ∧ try_parse m = Some r.
Proof.
  unfold collect. rewrite elem_of_collect_from. split; [|by right].
  intros [?%not_elem_of_empty|?]; done.
Qed.

Lemma collect_from_skip X before m after :
  try_parse m = None →
  collect_from X (before ++ m :: after) = collect_from X (before ++ after).
Proof.
  intros Hm. unfold collect_from. rewrite !foldl_app. simpl. by rewrite Hm.
Qed.

Lemma sorted_canonical l : canonical (sorted l).
Proof. apply (Sorted_merge_sort key_le). Qed.

Lemma sorted_Permutation l : sorted l ≡ₚ l.
Proof. apply merge_sort_Permutation. Qed.

Lemma sorted_unique l1 l2 : l1 ≡ₚ l2 → sorted l1 = sorted l2.
Proof.
  intros H. apply (Sorted_unique key_le); [apply sorted_canonical..|].
  by rewrite !sorted_Permutation.
Qed.

Lemma merge_ranges_total l :
  merge_ranges l = Some match l with [] => [] | first :: rest => sweep first rest end.
Proof. destruct l; [done|apply merge_ranges_sweep]. Qed.

Lemma address_range_max (a b : range) :
  address_range a → address_range b → address_range (a.1, Z.max a.2 b.2).
Proof. unfold address_range; simpl; lia. Qed.

Lemma merge_ranges_Forall (P : range → Prop) l out :
  (∀ a b, P a → P b → P (a.1, Z.max a.2 b.2)) →
  Forall P l → merge_ranges l = Some out → Forall P out.
Proof.
  intros Hmax Hl. rewrite merge_ranges_total. intros [= <-].
  destruct l as [|first rest]; [done|].
  apply Forall_cons in Hl as [? ?]. by apply sweep_Forall.
Qed.

Lemma candidate_None o0 o1 o2 o3 :
  candidate o0 o1 o2 o3 None = dotted o0 o1 o2 o3.
Proof. unfold candidate. by rewrite app_nil_r. Qed.

Lemma try_parse_plain o0 o1 o2 o3 :
  Forall plain_octet [o0; o1; o2; o3] →
  try_parse (candidate o0 o1 o2 o3 None)
  = Some (address_value o0 o1 o2 o3, address_value o0 o1 o2 o3).
Proof.
  intros H. rewrite candidate_None.
  pose proof (Forall_impl _ _ _ H plain_octet_unbroken) as Hu.
  apply Forall_four in Hu as ([_ ?] & [_ ?] & [_ ?] & [_ ?]).
  rewrite try_parse_address by by apply dotted_no_slash.
  by rewrite IPv4Address_dotted.
Qed.

Lemma try_parse_cidr o0 o1 o2 o3 q :
  Forall plain_octet [o0; o1; o2; o3] → prefix_accepted q →
  try_parse (candidate o0 o1 o2 o3 (Some q))
  = Some (Z.land (address_value o0 o1 o2 o3) (prefix_mask (int_of_digits q)),
          Z.lor (Z.land (address_value o0 o1 o2 o3) (prefix_mask (int_of_digits q)))
                (complement32 (prefix_mask (int_of_digits q)))).
Proof.
  intros H Hq.
  pose proof (Forall_impl _ _ _ H plain_octet_unbroken) as Hu.
  apply Forall_four in Hu as ([_ ?] & [_ ?] & [_ ?] & [_ ?]).
  pose proof (digits_unbroken q (proj1 Hq)) as [_ ?].
  unfold candidate.
  rewrite (try_parse_network (dotted o0 o1 o2 o3) q
             (address_value o0 o1 o2 o3) (prefix_mask (int_of_digits q))
             (int_of_digits q));
    [|by apply dotted_no_slash|done|by apply IPv4Address_dotted
     |by apply make_netmask_prefix].
  rewrite prefix_mask_complement; [done|].
  split; [by apply int_of_digits_nonneg, Hq|apply Hq].
Qed.

Lemma try_parse_invalid o0 o1 o2 o3 p :
  Forall unbroken [o0; o1; o2; o3] → from_option unbroken True p →
  invalid_candidate o0 o1 o2 o3 p →
  try_parse (candidate o0 o1 o2 o3 p) = None.
Proof.
  intros Hu Hp Hbad.
  pose proof Hu as ([_ ?] & [_ ?] & [_ ?] & [_ ?])%Forall_four.
  destruct p as [q|]; simpl in Hp.
  - destruct Hp as [Hdot Hslash]. unfold candidate.
    apply try_parse_network_None; [by apply dotted_no_slash|done|].
    destruct Hbad as [Hbad|(q' & [= <-] & Hbad)].
    + left. by apply IPv4Address_dotted_None.
    + right. by apply make_netmask_None.
  - destruct Hbad as [Hbad|(q' & [=] & _)].
    rewrite candidate_None, try_parse_address by by apply dotted_no_slash.
    by rewrite IPv4Address_dotted_None.
Qed.

Lemma octet_above_255 o : 255 < int_of_digits o → ¬ plain_octet o.
Proof. intros ? [(_ & _ & ?) _]. lia. Qed.

Lemma octet_leading_zero o : o ≠ [] → ¬ plain_octet (ZERO :: o).
Proof. intros Ho [_ [[= ->]|Hz]]; done. Qed.

Lemma prefix_above_32 q : 32 < int_of_digits q → ¬ prefix_accepted q.
Proof. intros ? [_ ?]. lia. Qed.

(** * The extractor and [parse_ranges] *)

Lemma re_digit_unfold ud c :
  re_digit ud c = if (c <? 128)%N then is_ascii_digit c else ud c.
Proof. reflexivity. Qed.

Lemma match_here_unfold ud ua prev text :
  match_here ud ua prev text
  = (cur ← run ud ua IP_CIDR_RE (Cursor prev [] text) Some;
     Some (reverse (cur_taken cur))).
Proof. reflexivity. Qed.

Lemma parse_ranges_with_unfold ud ua set_iter text merge :
  parse_ranges_with ud ua set_iter text merge
  = if merge then merge_ranges (sorted (set_iter (collect (findall ud ua text))))
    else Some (sorted (set_iter (collect (findall ud ua text)))).
Proof. reflexivity. Qed.

Lemma parse_ranges_unfold ud ua text merge :
  parse_ranges ud ua text merge = parse_ranges_with ud ua elements text merge.
Proof. reflexivity. Qed.

Section Properties.
Variable unicode_decimal : N → bool.
Variable unicode_alnum : N → bool.

Local Abbreviation re_digit := (re_digit unicode_decimal).
Local Abbreviation run := (run unicode_decimal unicode_alnum).
Local Abbreviation match_here := (match_here unicode_decimal unicode_alnum).
Local Abbreviation scan := (scan unicode_decimal unicode_alnum).
Local Abbreviation findall := (findall unicode_decimal unicode_alnum).
Local Abbreviation lang := (lang unicode_decimal).
Local Abbreviation digit_group := (digit_group unicode_decimal).
Local Abbreviation candidate_shape := (candidate_shape unicode_decimal).
Local Abbreviation parse_ranges_with :=
  (parse_ranges_with unicode_decimal unicode_alnum).
Local Abbreviation parse_ranges := (parse_ranges unicode_decimal unicode_alnum).

Lemma moved_refl cur : moved cur [] cur.
Proof. by split. Qed.

Lemma moved_trans cur1 s1 cur2 s2 cur3 :
  moved cur1 s1 cur2 → moved cur2 s2 cur3 → moved cur1 (s1 ++ s2) cur3.
Proof.
  intros [Hr1 Ht1] [Hr2 Ht2]. split.
  - by rewrite Hr1, Hr2, (assoc_L (++)).
  - by rewrite Ht2, Ht1, reverse_app, (assoc_L (++)).
Qed.

Lemma moved_advance cur x t :
  cur_rest cur = x :: t → moved cur [x] (advance x t cur).
Proof. intros H. split; [done|]. by rewrite reverse_singleton. Qed.

Lemma rep_loop_sound P body :
  sound_body P body →
  ∀ hi lo k cur found,
    rep_loop body k lo hi cur = Some found →
    ∃ ss cur', (lo ≤ length ss ≤ hi)%nat ∧ Forall P ss
      ∧ moved cur (concat ss) cur' ∧ k cur' = Some found.
Proof.
  intros Hbody. induction hi as [|hi IH]; intros lo k cur found; simpl.
  - destruct lo; [|done]. intros Hk.
    exists [], cur. split; [simpl; lia|].
    split; [constructor|]. split; [apply moved_refl|done].
  - destruct (body cur (rep_loop body k (pred lo) hi)) as [found'|] eqn:E.
    + intros [= ->].
      apply Hbody in E as (s & cur1 & Hs & Hm1 & E).
      apply IH in E as (ss & cur' & Hlen & Hss & Hm2 & Hk).
      exists (s :: ss), cur'. split; [simpl; lia|].
      split; [by constructor|]. split; [|done].
      simpl. by eapply moved_trans.
    + destruct lo; [|done]. intros Hk.
      exists [], cur. split; [simpl; lia|].
    split; [constructor|]. split; [apply moved_refl|done].
Qed.

Lemma run_sound r : sound_body (lang r) (run r).
Proof.
  induction r as [c| | |r1 IH1 r2 IH2|lo hi r IH]; intros cur k found; simpl.
  - destruct (cur_rest cur) as [|x t] eqn:E; [done|].
    destruct (N.eqb_spec x c) as [->|]; [|done]. intros Hk.
    exists [c], (advance c t cur). split_and!; [done| by apply moved_advance |done].
  - destruct (cur_rest cur) as [|x t] eqn:E; [done|].
    destruct (re_digit x) eqn:Hx; [|done]. intros Hk.
    exists [x], (advance x t cur). split_and!; [by exists x| by apply moved_advance |done].
  - destruct (at_boundary _ cur); [|done]. intros Hk.
    exists [], cur. split_and!; [done|apply moved_refl|done].
  - intros (s1 & cur1 & Hs1 & Hm1 & E)%IH1.
    apply IH2 in E as (s2 & cur2 & Hs2 & Hm2 & Hk).
    exists (s1 ++ s2), cur2. split_and!; [by exists s1, s2| by eapply moved_trans |done].
  - intros (ss & cur' & Hlen & Hss & Hm & Hk)%(rep_loop_sound _ _ IH).
    exists (concat ss), cur'. split_and!; [by exists ss|done..].
Qed.

Lemma lang_digits lo hi s :
  (1 ≤ lo)%nat → lang (Rep lo hi Digit) s → digit_group hi s.
Proof.
  intros Hlo (ss & -> & Hlen & Hss). simpl in Hss.
  assert (length (concat ss) = length ss
          ∧ Forall (λ c, re_digit c = true) (concat ss)) as [Hl Hd].
  { clear Hlen. induction Hss as [|s ss (x & -> & Hx) _ [IH1 IH2]]; simpl.
    - by split.
    - split; [by rewrite IH1|by constructor]. }
  split; [lia|done].
Qed.

Lemma lang_IP_CIDR_RE m : lang IP_CIDR_RE m → candidate_shape m.
Proof.
  intros (s0 & s1 & -> & -> & (s2 & s3 & -> & Hocts & (o3 & s4 & -> & Ho3
    & (s5 & s6 & -> & Hpre & ->)))).
  destruct Hocts as (ss & -> & Hlen & Hss).
  destruct ss as [|g0 [|g1 [|g2 [|]]]]; simpl in Hlen; try lia.
  apply Forall_cons in Hss as [(o0 & ? & -> & Ho0 & ->) Hss].
  apply Forall_cons in Hss as [(o1 & ? & -> & Ho1 & ->) Hss].
  apply Forall_cons in Hss as [(o2 & ? & -> & Ho2 & ->) _].
  apply lang_digits in Ho0, Ho1, Ho2, Ho3; try lia.
  destruct Hpre as (ps & -> & Hplen & Hps).
  destruct ps as [|g [|]]; simpl in Hplen; try lia.
  - exists o0, o1, o2, o3, None. split_and!; [|by apply Forall_four|done].
    unfold candidate, dotted. simpl.
    by repeat (rewrite <- app_assoc || rewrite app_nil_r || simpl).
  - apply Forall_cons in Hps as [(? & q & -> & -> & Hq) _].
    apply lang_digits in Hq; [|lia].
    exists o0, o1, o2, o3, (Some q). split_and!; [|by apply Forall_four|done].
    unfold candidate, dotted. simpl.
    by repeat (rewrite <- app_assoc || rewrite app_nil_r || simpl).
Qed.

Lemma match_here_shape prev text m :
  match_here prev text = Some m → candidate_shape m.
Proof.
  rewrite match_here_unfold.
  intros (cur & (s & cur' & Hs & [_ Ht] & [= <-])%run_sound & [= <-])%bind_Some.
  apply lang_IP_CIDR_RE. simpl in Ht. rewrite Ht, app_nil_r, reverse_involutive. done.
Qed.

Lemma scan_shape text : ∀ prev skip m, m ∈ scan prev text skip → candidate_shape m.
Proof.
  induction text as [|c t IH]; intros prev skip m; simpl.
  - by intros ?%not_elem_of_nil.
  - destruct skip; [|by apply IH].
    destruct (match_here prev (c :: t)) as [m'|] eqn:E; [|by apply IH].
    intros [->|?]%elem_of_cons; [by eapply match_here_shape|by eapply IH].
Qed.

Lemma findall_shape text m : m ∈ findall text → candidate_shape m.
Proof. apply scan_shape. Qed.

Lemma re_digit_not_separator c :
  re_digit c = true → c ≠ DOT ∧ c ≠ SLASH ∧ c ≠ COLON.
Proof.
  rewrite re_digit_unfold. unfold DOT, SLASH, COLON.
  destruct (N.ltb_spec c 128); [|lia].
  intros ?%is_ascii_digit_range. lia.
Qed.

Lemma digit_group_unbroken n s : digit_group n s → unbroken s ∧ COLON ∉ s.
Proof.
  intros [_ Hs]. rewrite Forall_forall in Hs.
  split; [split|]; intros Hc%Hs%re_digit_not_separator;
    by destruct Hc as (? & ? & ?).
Qed.

(** A match holds no colon, so the IPv6 classes of [ipaddress] reject it. *)
Lemma findall_no_colon text m : m ∈ findall text → COLON ∉ m.
Proof.
  intros (o0 & o1 & o2 & o3 & p & -> & Ho & Hp)%findall_shape.
  apply Forall_four in Ho
    as ([_ ?]%digit_group_unbroken & [_ ?]%digit_group_unbroken
        & [_ ?]%digit_group_unbroken & [_ ?]%digit_group_unbroken).
  assert (COLON ∉ dotted o0 o1 o2 o3)
    by (unfold dotted; repeat apply not_elem_of_join; done).
  unfold candidate. destruct p as [q|]; simpl in Hp.
  - apply digit_group_unbroken in Hp as [_ ?]. by apply not_elem_of_join.
  - by rewrite app_nil_r.
Qed.

(** The pieces of a match hold no separator. *)
Lemma findall_unbroken text m :
  m ∈ findall text →
  ∃ o0 o1 o2 o3 p,
    m = candidate o0 o1 o2 o3 p
    ∧ Forall unbroken [o0; o1; o2; o3] ∧ from_option unbroken True p.
Proof.
  intros (o0 & o1 & o2 & o3 & p & -> & Ho & Hp)%findall_shape.
  exists o0, o1, o2, o3, p. split_and!; [done| |].
  - eapply Forall_impl; [exact Ho|]. by intros o [? _]%digit_group_unbroken.
  - destruct p; [|done]. by apply digit_group_unbroken in Hp as [? _].
Qed.

Lemma parse_ranges_with_enumerates set_iter text merge :
  enumerates set_iter →
  parse_ranges_with set_iter text merge = parse_ranges text merge.
Proof.
  intros Hit. rewrite parse_ranges_unfold, !parse_ranges_with_unfold.
  by rewrite (sorted_unique _ _ (Hit _)).
Qed.

Lemma elem_of_unmerged text r :
  r ∈ sorted (elements (collect (findall text)))
  ↔ ∃ m, m ∈ findall text ∧ try_parse m = Some r.
Proof. by rewrite sorted_Permutation, elem_of_elements, elem_of_collect. Qed.

(** C7. Without merging, [parse_ranges] returns a list with no repeated
    (start, end) pair, in canonical order, whose members are exactly the
    ranges of the matches that parse: a range reached by several matches
    appears once, and a text with no valid match gives the empty list. *)
Theorem parse_ranges_canonical (text : str) :
  ∃ out, parse_ranges text false = Some out
    ∧ NoDup out
    ∧ canonical out
    ∧ (∀ r, r ∈ out ↔ ∃ m, m ∈ findall text ∧ try_parse m = Some r)
    ∧ ((∀ m, m ∈ findall text → try_parse m = None) → out = []).
Proof.
  exists (sorted (elements (collect (findall text)))). split_and!.
  - done.
  - rewrite sorted_Permutation. apply NoDup_elements.
  - apply sorted_canonical.
  - apply elem_of_unmerged.
  - intros Hnone. apply elem_of_nil_inv. intros r (m & Hm & Hr)%elem_of_unmerged.
    rewrite (Hnone m Hm) in Hr. done.
Qed.

(** C8. [parse_ranges] is deterministic: whatever order iterating the
    set [ranges] yields its elements in, two calls on the same text with
    the same flag return the same list. *)
Theorem parse_ranges_deterministic
    (iter1 iter2 : gset range → list range) (text : str) (merge : bool) :
  enumerates iter1 → enumerates iter2 →
  parse_ranges_with iter1 text merge = parse_ranges_with iter2 text merge.
Proof.
  intros H1 H2. by rewrite !parse_ranges_with_enumerates.
Qed.

Lemma unmerged_address_ranges text :
  Forall address_range (sorted (elements (collect (findall text)))).
Proof.
  apply Forall_forall. intros r (m & _ & Hr)%elem_of_unmerged.
  by eapply try_parse_address_range.
Qed.

Lemma parse_ranges_total text merge : is_Some (parse_ranges text merge).
Proof.
  rewrite parse_ranges_unfold, parse_ranges_with_unfold.
  destruct merge; [|done]. by rewrite merge_ranges_total.
Qed.

(** C9. With or without merging, [parse_ranges] returns, and every
    range (start, end) it returns satisfies [0 ≤ start ≤ end ≤ 2^32 - 1]. *)
Theorem parse_ranges_address_ranges (text : str) (merge : bool) :
  ∃ out, parse_ranges text merge = Some out ∧ Forall address_range out.
Proof.
  destruct (parse_ranges_total text merge) as [out Hout].
  exists out. split; [done|].
  rewrite parse_ranges_unfold, parse_ranges_with_unfold in Hout.
  destruct merge.
  - eapply merge_ranges_Forall;
      [apply address_range_max|apply unmerged_address_ranges|exact Hout].
  - injection Hout as <-. apply unmerged_address_ranges.
Qed.

(** C4 (amended). A candidate without a slash whose four octets are
    each one to three ASCII digits of value at most 255, written without
    a leading zero (a lone 0 apart), parses to the degenerate range with
    start = end = octet0 * 2^24 + octet1 * 2^16 + octet2 * 2^8 + octet3;
    and the text "10.0.0.5" gives the single range
    (167772165, 167772165). *)
Theorem single_address_interval :
  (∀ o0 o1 o2 o3 : str,
     Forall plain_octet [o0; o1; o2; o3] →
     try_parse (candidate o0 o1 o2 o3 None)
     = Some (address_value o0 o1 o2 o3, address_value o0 o1 o2 o3))
  ∧ (∀ merge,
       parse_ranges (str_of "10.0.0.5") merge = Some [(167772165, 167772165)]).
Proof.
  split; [apply try_parse_plain|]. by intros []; vm_compute.
Qed.

(** C5. A candidate address/prefix with valid octets and a prefix
    length in 0..32 parses to [start = address & mask] and
    [end = start | ~mask], where [mask] is the 32-bit mask of the prefix
    length; host bits set in the address are cleared, not rejected
    (192.168.1.77/24 gives the range of 192.168.1.0/24); and the text
    "192.168.1.0/24" gives (3232235776, 3232236031). *)
Theorem cidr_interval :
  (∀ o0 o1 o2 o3 q : str,
     Forall plain_octet [o0; o1; o2; o3] → prefix_in_range q →
     let address := address_value o0 o1 o2 o3 in
     let mask := prefix_mask (int_of_digits q) in
     let start := Z.land address mask in
     try_parse (candidate o0 o1 o2 o3 (Some q))
     = Some (start, Z.lor start (complement32 mask)))
  ∧ try_parse (str_of "192.168.1.77/24") = Some (3232235776, 3232236031)
  ∧ (∀ merge,
       parse_ranges (str_of "192.168.1.0/24") merge
       = Some [(3232235776, 3232236031)]).
Proof.
  split_and!; [|by vm_compute|by intros []; vm_compute].
  intros o0 o1 o2 o3 q Ho [Hq _]. by apply try_parse_cidr.
Qed.

(** C6. An invalid candidate (an octet above 255, an octet with a
    leading zero, a prefix length above 32, or any other octet or prefix
    that the parser rejects) yields no range; the loop goes on as if the
    candidate were not there; [parse_ranges] always returns; every match
    that does parse has its range in the result; and "999.999.999.999"
    leaves nothing in the output.  Candidates are strings without a
    colon, as every match of the pattern is. *)
Theorem invalid_candidate_dropped :
  (∀ o0 o1 o2 o3 p,
     Forall unbroken [o0; o1; o2; o3] → from_option unbroken True p →
     colon_free (candidate o0 o1 o2 o3 p) →
     invalid_candidate o0 o1 o2 o3 p →
     try_parse (candidate o0 o1 o2 o3 p) = None)
  ∧ (∀ o0 o1 o2 o3 p,
       Exists (λ o, 255 < int_of_digits o) [o0; o1; o2; o3]
       ∨ Exists (λ o, ∃ o', o = ZERO :: o' ∧ o' ≠ []) [o0; o1; o2; o3]
       ∨ (∃ q, p = Some q ∧ 32 < int_of_digits q) →
       invalid_candidate o0 o1 o2 o3 p)
  ∧ (∀ before m after,
       Forall colon_free (before ++ m :: after) →
       try_parse m = None →
       collect (before ++ m :: after) = collect (before ++ after))
  ∧ (∀ text, Forall colon_free (findall text))
  ∧ (∀ text merge, is_Some (parse_ranges text merge))
  ∧ (∀ text m r,
       m ∈ findall text → try_parse m = Some r →
       ∃ out, parse_ranges text false = Some out ∧ r ∈ out)
  ∧ (∀ merge, parse_ranges (str_of "999.999.999.999") merge = Some [])
  ∧ (∀ merge,
       parse_ranges (str_of "999.999.999.999 10.0.0.5 1.2.3.4/33 010.1.1.1") merge
       = Some [(167772165, 167772165)]).
Proof.
  split_and!.
  - intros o0 o1 o2 o3 p Hu Hp _. by apply try_parse_invalid.
  - intros o0 o1 o2 o3 p [Hbig|[Hzero|(q & -> & Hq)]].
    + left. intros Hall. rewrite Forall_forall in Hall.
      apply Exists_exists in Hbig as (o & Ho & Hbig).
      by apply (octet_above_255 o Hbig), Hall.
    + left. intros Hall. rewrite Forall_forall in Hall.
      apply Exists_exists in Hzero as (o & Ho & o' & -> & Hne).
      by apply (octet_leading_zero o' Hne), Hall.
    + right. exists q. split; [done|]. by apply prefix_above_32.
  - intros. by apply collect_from_skip.
  - intros text. apply Forall_forall. intros m. apply findall_no_colon.
  - apply parse_ranges_total.
  - intros text m r Hm Hr. eexists. split; [done|].
    apply elem_of_unmerged. by exists m.
  - by intros []; vm_compute.
  - by intros []; vm_compute.
Qed.

End Properties.

(** C10. For a valid dotted-decimal address [a], the candidate [a/32]
    parses to the same range as [a] alone, namely (v, v) for the value
    [v] of the address. *)
Theorem slash32_same_as_address (a : str) (v : Z) :
  IPv4Address a = Some v →
  try_parse (a ++ SLASH :: str_of "32") = try_parse a
  ∧ try_parse a = Some (v, v).
Proof.
  intros Ha.
  assert (SLASH ∉ a) as Hs.
  { intros Hin%str_contains_elem. unfold IPv4Address in Ha. by rewrite Hin in Ha. }
  assert (try_parse a = Some (v, v)) as Hbare
    by by rewrite try_parse_address, Ha.
  split; [|done]. rewrite Hbare.
  rewrite (try_parse_network a (str_of "32") v ALL_ONES 32); [| done | | done | done].
  - pose proof (IPv4Address_bounds _ _ Ha).
    rewrite land_ALL_ONES by done. by rewrite Z.lxor_nilpotent, Z.lor_0_r.
  - by apply (digits_unbroken (str_of "32")).
Qed.


(** * Worked instances *)

(** The same address twice in the text gives one range. *)
Example repeated_address_once :
  parse_ranges ascii_only ascii_only (str_of "10.0.0.5, 10.0.0.5") false
  = Some [(167772165, 167772165)].
Proof. by vm_compute. Qed.

(** Two contiguous /24 blocks merge into one range. *)
Example adjacent_blocks_merge :
  parse_ranges ascii_only ascii_only (str_of "10.0.0.0/24 10.0.1.0/24") true
  = Some [(167772160, 167772671)].
Proof. by vm_compute. Qed.

(** C4 as stated fails: every octet of 010.0.0.5 is one to three digits
    of value at most 255, and the candidate is dropped. *)
Lemma single_address_leading_zero :
  candidate (str_of "010") (str_of "0") (str_of "0") (str_of "5") None
  = str_of "010.0.0.5"
  ∧ Forall octet_in_range [str_of "010"; str_of "0"; str_of "0"; str_of "5"]
  ∧ try_parse (str_of "010.0.0.5") = None.
Proof.
  split_and!; [reflexivity| |reflexivity].
  apply Forall_four. split_and!; (split_and!; [reflexivity|simpl; lia|by vm_compute]).
Qed.

Lemma merge_ranges_invariant_witness :
  canonical [(1, 5); (2, 3); (7, 9); (10, 10); (12, 13)]
  ∧ NoDup [(1, 5); (2, 3); (7, 9); (10, 10); (12, 13)]
  ∧ ∃ out, merge_ranges [(1, 5); (2, 3); (7, 9); (10, 10); (12, 13)] = Some out
      ∧ canonical out
      ∧ no_touching out
      ∧ (∀ z, covers out z
              ↔ covers [(1, 5); (2, 3); (7, 9); (10, 10); (12, 13)] z)
      ∧ (Forall well_formed [(1, 5); (2, 3); (7, 9); (10, 10); (12, 13)] →
         Forall well_formed out).
Proof.
  assert (canonical [(1, 5); (2, 3); (7, 9); (10, 10); (12, 13)]) as Hc
    by (apply (bool_decide_unpack _); vm_compute; exact I).
  assert (NoDup [(1, 5); (2, 3); (7, 9); (10, 10); (12, 13)]) as Hn
    by (apply (bool_decide_unpack _); vm_compute; exact I).
  split_and!; [exact Hc|exact Hn|].
  exact (merge_ranges_invariant _ Hc Hn).
Defined.

Lemma merge_ranges_minimal_witness :
  canonical [(1, 5); (2, 3); (7, 9); (10, 10); (12, 13)]
  ∧ NoDup [(1, 5); (2, 3); (7, 9); (10, 10); (12, 13)]
  ∧ Forall well_formed [(1, 5); (2, 3); (7, 9); (10, 10); (12, 13)]
  ∧ ∃ out, merge_ranges [(1, 5); (2, 3); (7, 9); (10, 10); (12, 13)] = Some out
      ∧ Forall well_formed out
      ∧ (∀ z, covers out z
              ↔ covers [(1, 5); (2, 3); (7, 9); (10, 10); (12, 13)] z)
      ∧ ∀ cover : list range,
          (∀ z, covers cover z
                ↔ covers [(1, 5); (2, 3); (7, 9); (10, 10); (12, 13)] z) →
          (length out ≤ length cover)%nat.
Proof.
  assert (canonical [(1, 5); (2, 3); (7, 9); (10, 10); (12, 13)]) as Hc
    by (apply (bool_decide_unpack _); vm_compute; exact I).
  assert (NoDup [(1, 5); (2, 3); (7, 9); (10, 10); (12, 13)]) as Hn
    by (apply (bool_decide_unpack _); vm_compute; exact I).
  assert (Forall well_formed [(1, 5); (2, 3); (7, 9); (10, 10); (12, 13)]) as Hw
    by (repeat (apply List.Forall_cons; [unfold well_formed; simpl; lia|]);
        apply List.Forall_nil).
  split_and!; [exact Hc|exact Hn|exact Hw|].
  exact (merge_ranges_minimal _ Hc Hn Hw).
Defined.

Lemma merge_ranges_idempotent_witness :
  canonical [(1, 5); (7, 10); (12, 13)]
  ∧ no_touching [(1, 5); (7, 10); (12, 13)]
  ∧ merge_ranges [(1, 5); (7, 10); (12, 13)] = Some [(1, 5); (7, 10); (12, 13)].
Proof.
  assert (canonical [(1, 5); (7, 10); (12, 13)]) as Hc
    by (apply (bool_decide_unpack _); vm_compute; exact I).
  assert (no_touching [(1, 5); (7, 10); (12, 13)]) as Hm
    by (apply no_touching_Sorted, (bool_decide_unpack _); vm_compute; exact I).
  split_and!; [exact Hc|exact Hm|].
  exact (merge_ranges_idempotent _ Hc Hm).
Defined.

Lemma single_address_interval_witness :
  Forall plain_octet [str_of "10"; str_of "0"; str_of "0"; str_of "5"]
  ∧ try_parse (candidate (str_of "10") (str_of "0") (str_of "0") (str_of "5") None)
    = Some (address_value (str_of "10") (str_of "0") (str_of "0") (str_of "5"),
            address_value (str_of "10") (str_of "0") (str_of "0") (str_of "5")).
Proof.
  assert (Forall plain_octet [str_of "10"; str_of "0"; str_of "0"; str_of "5"])
    as Ho by (apply Forall_four; split_and!; apply plain_octet_iff; by eexists).
  split; [exact Ho|].
  exact (proj1 (single_address_interval ascii_only ascii_only) _ _ _ _ Ho).
Defined.

Lemma cidr_interval_witness :
  Forall plain_octet [str_of "192"; str_of "168"; str_of "1"; str_of "77"]
  ∧ prefix_in_range (str_of "24")
  ∧ try_parse (candidate (str_of "192") (str_of "168") (str_of "1") (str_of "77")
                 (Some (str_of "24")))
    = Some (Z.land 3232235853 (prefix_mask 24),
            Z.lor (Z.land 3232235853 (prefix_mask 24))
                  (complement32 (prefix_mask 24))).
Proof.
  assert (Forall plain_octet [str_of "192"; str_of "168"; str_of "1"; str_of "77"])
    as Ho by (apply Forall_four; split_and!; apply plain_octet_iff; by eexists).
  assert (prefix_in_range (str_of "24")) as Hq
    by (split; [split; [reflexivity|by vm_compute]|simpl; lia]).
  split_and!; [exact Ho|exact Hq|].
  exact (proj1 (cidr_interval ascii_only ascii_only) _ _ _ _ _ Ho Hq).
Defined.

Lemma invalid_candidate_dropped_witness :
  Forall unbroken [str_of "999"; str_of "999"; str_of "999"; str_of "999"]
  ∧ colon_free (candidate (str_of "999") (str_of "999") (str_of "999")
                  (str_of "999") None)
  ∧ invalid_candidate (str_of "999") (str_of "999") (str_of "999") (str_of "999") None
  ∧ try_parse (candidate (str_of "999") (str_of "999") (str_of "999") (str_of "999")
                 None) = None.
Proof.
  assert (Forall unbroken [str_of "999"; str_of "999"; str_of "999"; str_of "999"])
    as Hu by (apply Forall_four; split_and!; by apply digits_unbroken).
  assert (colon_free (candidate (str_of "999") (str_of "999") (str_of "999")
                        (str_of "999") None)) as Hc
    by (apply (bool_decide_unpack _); vm_compute; exact I).
  assert (invalid_candidate (str_of "999") (str_of "999") (str_of "999")
            (str_of "999") None) as Hbad.
  { left. intros [H _]%Forall_cons. revert H. apply octet_above_255. by vm_compute. }
  split_and!; [exact Hu|exact Hc|exact Hbad|].
  exact (proj1 (invalid_candidate_dropped ascii_only ascii_only) _ _ _ _ None
           Hu I Hc Hbad).
Defined.

Lemma parse_ranges_deterministic_witness :
  enumerates elements
  ∧ enumerates (reverse ∘ elements)
  ∧ parse_ranges_with ascii_only ascii_only elements
      (str_of "10.0.0.6 10.0.0.5") true
    = parse_ranges_with ascii_only ascii_only (reverse ∘ elements)
        (str_of "10.0.0.6 10.0.0.5") true.
Proof.
  assert (enumerates elements) as H1 by (intros X; reflexivity).
  assert (enumerates (reverse ∘ elements)) as H2
    by (intros X; apply reverse_Permutation).
  split_and!; [exact H1|exact H2|].
  exact (parse_ranges_deterministic ascii_only ascii_only _ _ _ _ H1 H2).
Defined.

Lemma slash32_same_as_address_witness :
  IPv4Address (str_of "10.0.0.5") = Some 167772165
  ∧ try_parse (str_of "10.0.0.5" ++ SLASH :: str_of "32")
    = try_parse (str_of "10.0.0.5")
  ∧ try_parse (str_of "10.0.0.5") = Some (167772165, 167772165).
Proof.
  split; [reflexivity|].
  exact (slash32_same_as_address (str_of "10.0.0.5") 167772165 eq_refl).
Defined.

(** * Further properties of [merge_ranges] *)

Lemma sweep_twice cur ranges :
  merge_ranges (sweep cur ranges) = Some (sweep cur ranges).
Proof.
  pose proof (sweep_apart cur ranges) as Hs.
  destruct (sweep_head cur ranges) as (e & tl & Heq & _).
  rewrite Heq in *. rewrite merge_ranges_sweep. f_equal. by apply sweep_fixed.
Qed.

(** X1. On any list of ranges, sorted or not, [merge_ranges] returns a
    list that it leaves unchanged: merging a second time gives the result
    of the first. *)
Theorem merge_ranges_twice (ranges : list range) :
  ∃ out, merge_ranges ranges = Some out ∧ merge_ranges out = Some out.
Proof.
  rewrite merge_ranges_total. eexists. split; [done|].
  destruct ranges as [|first rest]; [done|apply sweep_twice].
Qed.

Lemma sweep_starts cur ranges :
  (sweep cur ranges).*1 `sublist_of` (cur :: ranges).*1.
Proof.
  revert cur. induction ranges as [|[s e] ranges IH]; intros [ls le]; simpl.
  - done.
  - destruct (s <=? le + 1).
    + specialize (IH (ls, Z.max le e)). simpl in IH.
      etrans; [exact IH|]. constructor. by apply sublist_cons.
    + simpl. constructor. apply (IH (s, e)).
Qed.

Lemma sweep_ends cur ranges r :
  r ∈ sweep cur ranges → ∃ b, b ∈ cur :: ranges ∧ r.2 = b.2.
Proof.
  revert cur. induction ranges as [|[s e] ranges IH]; intros [ls le]; simpl.
  - intros ->%list_elem_of_singleton. exists (ls, le). split; [by left|done].
  - destruct (s <=? le + 1).
    + intros (b & [->|Hb]%elem_of_cons & Hr)%IH; simpl in Hr.
      * destruct (Z.max_spec le e) as [[_ Hm]|[_ Hm]]; rewrite Hm in Hr.
        -- exists (s, e). split; [right; by left|done].
        -- exists (ls, le). split; [by left|done].
      * exists b. split; [by do 2 right|done].
    + intros [->|(b & Hb & Hr)%IH]%elem_of_cons.
      * exists (ls, le). split; [by left|done].
      * exists b. split; [by right|done].
Qed.

Lemma sweep_length cur ranges :
  (length (sweep cur ranges) ≤ length (cur :: ranges))%nat.
Proof.
  pose proof (sublist_length _ _ (sweep_starts cur ranges)) as H.
  by rewrite !length_fmap in H.
Qed.

(** X2. [merge_ranges] invents no bound: the starts of its result are a
    subsequence of the starts of the input, every end in the result is the
    end of some input range, the result is no longer than the input, and
    it is empty only for the empty input. *)
Theorem merge_ranges_keeps_bounds (ranges : list range) :
  ∃ out, merge_ranges ranges = Some out
    ∧ out.*1 `sublist_of` ranges.*1
    ∧ (∀ r, r ∈ out → ∃ b, b ∈ ranges ∧ r.2 = b.2)
    ∧ (length out ≤ length ranges)%nat
    ∧ (out = [] ↔ ranges = []).
Proof.
  rewrite merge_ranges_total. eexists. split; [done|].
  destruct ranges as [|first rest].
  - split_and!; [done| |done|done]. by intros r ?%not_elem_of_nil.
  - split_and!.
    + apply sweep_starts.
    + apply sweep_ends.
    + apply sweep_length.
    + destruct (sweep_head first rest) as (e & tl & -> & _). done.
Qed.

Lemma inside_trans (a b c : range) : inside a b → inside b c → inside a c.
Proof. unfold inside. lia. Qed.

Lemma sweep_inside cur ranges r :
  StronglySorted key_le (cur :: ranges) →
  r ∈ cur :: ranges → ∃ o, o ∈ sweep cur ranges ∧ inside r o.
Proof.
  revert cur r.
  induction ranges as [|[s e] ranges IH]; intros [ls le] r Hs; simpl.
  - intros ->%list_elem_of_singleton. exists (ls, le).
    split; [by left|unfold inside; simpl; lia].
  - apply canonical_step in Hs as (Hnxt & Hs & Hm).
    destruct (Z.leb_spec s (le + 1)).
    + intros Hr.
      assert (∃ r', r' ∈ (ls, Z.max le e) :: ranges ∧ inside r r')
        as (r' & Hr' & Hin).
      { apply elem_of_cons in Hr as [->|[->|Hr]%elem_of_cons].
        - exists (ls, Z.max le e). split; [by left|]. unfold inside; simpl; lia.
        - exists (ls, Z.max le e). split; [by left|].
          revert Hnxt. unfold inside, key_le; simpl; lia.
        - exists r. split; [by right|]. unfold inside; lia. }
      destruct (IH _ _ Hm Hr') as (o & Ho & Hro).
      exists o. split; [done|]. by eapply inside_trans.
    + intros [->|Hr]%elem_of_cons.
      * exists (ls, le). split; [by left|unfold inside; simpl; lia].
      * destruct (IH _ _ Hs Hr) as (o & Ho & Hro).
        exists o. split; [by right|done].
Qed.

(** X3. On a list in canonical order, every input range lies inside one
    range of the result of [merge_ranges]. *)
Theorem merge_ranges_contains_input (ranges : list range) :
  canonical ranges →
  ∃ out, merge_ranges ranges = Some out
    ∧ ∀ r, r ∈ ranges → ∃ o, o ∈ out ∧ inside r o.
Proof.
  intros Hc. rewrite merge_ranges_total. eexists. split; [done|].
  destruct ranges as [|first rest]; [by intros r ?%not_elem_of_nil|].
  intros r. apply sweep_inside. by apply (Sorted_StronglySorted key_le).
Qed.

(** * Further properties of the parser *)

Lemma prefix_mask_ldiff n :
  0 ≤ n ≤ 32 → prefix_mask n = Z.ldiff (Z.ones 32) (Z.ones (32 - n)).
Proof. intros Hn. each_prefix n. Qed.

Lemma complement32_prefix_mask n :
  0 ≤ n ≤ 32 → complement32 (prefix_mask n) = Z.ones (32 - n).
Proof.
  intros Hn. unfold complement32, prefix_mask. rewrite Z.ones_equiv. lia.
Qed.

Lemma land_prefix_mask addr n :
  0 ≤ addr ≤ ALL_ONES → 0 ≤ n ≤ 32 →
  Z.land addr (prefix_mask n) = addr - addr mod 2 ^ (32 - n).
Proof.
  intros Ha Hn. rewrite prefix_mask_ldiff by done.
  assert (Z.land addr (Z.ldiff (Z.ones 32) (Z.ones (32 - n)))
          = Z.ldiff (Z.land addr (Z.ones 32)) (Z.ones (32 - n))) as ->.
  { apply Z.bits_inj'. intros i Hi.
    rewrite Z.land_spec, !Z.ldiff_spec, Z.land_spec.
    by destruct (Z.testbit addr i), (Z.testbit (Z.ones 32) i). }
  change (Z.ones 32) with ALL_ONES. rewrite land_ALL_ONES by done.
  rewrite Z.ldiff_ones_r by lia.
  rewrite Z.shiftr_div_pow2, Z.shiftl_mul_pow2 by lia.
  rewrite (Z.mod_eq addr (2 ^ (32 - n))) by lia. lia.
Qed.

Lemma lor_block_end addr n :
  0 ≤ addr ≤ ALL_ONES → 0 ≤ n ≤ 32 →
  Z.lor (Z.land addr (prefix_mask n)) (complement32 (prefix_mask n))
  = Z.land addr (prefix_mask n) + 2 ^ (32 - n) - 1.
Proof.
  intros Ha Hn. rewrite complement32_prefix_mask by done.
  assert (Z.land (Z.land addr (prefix_mask n)) (Z.ones (32 - n)) = 0) as Hdis.
  { rewrite prefix_mask_ldiff by done.
    apply Z.bits_inj'. intros i Hi.
    rewrite !Z.land_spec, Z.ldiff_spec, Z.bits_0.
    by destruct (Z.testbit addr i), (Z.testbit (Z.ones 32) i),
         (Z.testbit (Z.ones (32 - n)) i). }
  rewrite <- Z.lxor_lor, <- Z.add_nocarry_lxor by done.
  rewrite Z.ones_equiv. lia.
Qed.

Lemma address_value_bounds o0 o1 o2 o3 :
  Forall plain_octet [o0; o1; o2; o3] →
  0 ≤ address_value o0 o1 o2 o3 ≤ ALL_ONES.
Proof. intros H. eapply IPv4Address_bounds. by apply IPv4Address_dotted. Qed.

(** X4. A candidate [a.b.c.d/q] with valid octets and a prefix length
    [q ≤ 32] parses to the block of [2^(32-q)] addresses, aligned on a
    multiple of its size, that holds the address: it starts at the address
    rounded down to a multiple of the size and ends [size - 1] later. *)
Theorem cidr_block (o0 o1 o2 o3 q : str) :
  Forall plain_octet [o0; o1; o2; o3] → prefix_in_range q →
  let address := address_value o0 o1 o2 o3 in
  let size := 2 ^ (32 - int_of_digits q) in
  ∃ start end_,
    try_parse (candidate o0 o1 o2 o3 (Some q)) = Some (start, end_)
    ∧ start = address - address mod size
    ∧ end_ = start + size - 1
    ∧ start ≤ address ≤ end_.
Proof.
  intros Ho [Hq _] address size.
  pose proof (address_value_bounds _ _ _ _ Ho) as Ha.
  assert (0 ≤ int_of_digits q ≤ 32) as Hn
    by (split; [by apply int_of_digits_nonneg, Hq|apply Hq]).
  rewrite try_parse_cidr by done.
  rewrite lor_block_end, land_prefix_mask by done.
  fold address size. eexists _, _. split_and!; [done..| |].
  - pose proof (Z.mod_pos_bound address size). unfold size in *. lia.
  - pose proof (Z.mod_pos_bound address size). unfold size in *. lia.
Qed.

Lemma int_of_digits_zero q : int_of_digits (ZERO :: q) = int_of_digits q.
Proof. done. Qed.

Lemma make_netmask_leading_zero q :
  isascii_isdigit q = true →
  make_netmask (MaskStr (ZERO :: q)) = make_netmask (MaskStr q).
Proof.
  intros Hq. pose proof (digits_unbroken q Hq) as [Hdot _].
  assert (isascii_isdigit (ZERO :: q) = true) as Hq'.
  { apply isascii_isdigit_Forall. apply isascii_isdigit_Forall in Hq as [_ Hq].
    split; [done|]. constructor; [unfold ZERO; lia|done]. }
  pose proof (digits_unbroken _ Hq') as [Hdot' _].
  unfold make_netmask, prefix_from_prefix_string.
  rewrite Hq, Hq', int_of_digits_zero. simpl negb. cbv iota.
  destruct (negb _); [|done].
  by rewrite !prefix_from_ip_string_unbroken.
Qed.

Lemma try_parse_slash a p :
  SLASH ∉ a → SLASH ∉ p →
  try_parse (a ++ SLASH :: p)
  = (addr ← IPv4Address a;
     '(mask, _) ← make_netmask (MaskStr p);
     Some (Z.land addr mask, Z.lor (Z.land addr mask) (Z.lxor mask ALL_ONES))).
Proof.
  intros Ha Hp.
  destruct (IPv4Address a) as [addr|] eqn:Haddr; simpl.
  - destruct (make_netmask (MaskStr p)) as [[mask n]|] eqn:Hm; simpl.
    + by eapply try_parse_network.
    + apply try_parse_network_None; auto.
  - apply try_parse_network_None; auto.
Qed.

(** X5. A leading zero in the prefix length changes nothing: after a
    valid address [a] and for a digit [d], the candidate [a/0d] parses
    exactly as [a/d] does. *)
Theorem prefix_leading_zero (a : str) (v : Z) (d : N) :
  IPv4Address a = Some v → is_ascii_digit d = true →
  try_parse (a ++ [SLASH; ZERO; d]) = try_parse (a ++ [SLASH; d]).
Proof.
  intros Ha Hd.
  assert (SLASH ∉ a) as Hs.
  { intros Hin%str_contains_elem. unfold IPv4Address in Ha. by rewrite Hin in Ha. }
  assert (isascii_isdigit [d] = true) as Hq.
  { apply isascii_isdigit_Forall. split; [done|].
    apply andb_true_iff in Hd as [?%N.leb_le ?%N.leb_le].
    constructor; [lia|constructor]. }
  pose proof (digits_unbroken [d] Hq) as [_ Hd'].
  rewrite !try_parse_slash; [|done..|].
  - by rewrite make_netmask_leading_zero.
  - intros [?|?]%elem_of_cons; done.
Qed.

(** * Further properties of [parse_ranges] *)

Lemma collect_ext ms1 ms2 :
  (∀ r, (∃ m, m ∈ ms1 ∧ try_parse m = Some r)
        ↔ (∃ m, m ∈ ms2 ∧ try_parse m = Some r)) →
  collect ms1 = collect ms2.
Proof.
  intros H. apply set_eq. intros r. by rewrite !elem_of_collect.
Qed.

Section Pipeline.
Variable unicode_decimal : N → bool.
Variable unicode_alnum : N → bool.

Local Abbreviation findall := (findall unicode_decimal unicode_alnum).
Local Abbreviation parse_ranges := (parse_ranges unicode_decimal unicode_alnum).

Lemma covers_unmerged text z :
  covers (sorted (elements (collect (findall text)))) z
  ↔ ∃ m r, m ∈ findall text ∧ try_parse m = Some r ∧ r.1 ≤ z ≤ r.2.
Proof.
  unfold covers. split.
  - intros (r & (m & Hm & Hr)%elem_of_unmerged & Hz). by exists m, r.
  - intros (m & r & Hm & Hr & Hz). exists r. split; [|done].
    apply elem_of_unmerged. by exists m.
Qed.

(** X6. [parse_ranges(text, merge=True)] is [merge_ranges] of
    [parse_ranges(text)]: it is in canonical order with a gap between
    consecutive ranges, no longer than the unmerged list, every unmerged
    range lies inside one of its ranges, and it covers exactly the
    integers covered by the ranges of the valid matches. *)
Theorem parse_ranges_merged (text : str) :
  ∃ plain merged,
    parse_ranges text false = Some plain
    ∧ parse_ranges text true = Some merged
    ∧ merge_ranges plain = Some merged
    ∧ canonical merged
    ∧ no_touching merged
    ∧ (length merged ≤ length plain)%nat
    ∧ (∀ r, r ∈ plain → ∃ o, o ∈ merged ∧ inside r o)
    ∧ (∀ z, covers merged z
            ↔ ∃ m r, m ∈ findall text ∧ try_parse m = Some r ∧ r.1 ≤ z ≤ r.2).
Proof.
  set (plain := sorted (elements (collect (findall text)))).
  assert (canonical plain) as Hc by apply sorted_canonical.
  exists plain, (match plain with [] => [] | first :: rest => sweep first rest end).
  assert (parse_ranges text true = merge_ranges plain) as Hm
    by (by rewrite parse_ranges_unfold, parse_ranges_with_unfold).
  rewrite Hm, merge_ranges_total.
  split_and!; [done..| | | | |].
  - destruct plain as [|first rest]; [constructor|].
    by apply sweep_canonical, (Sorted_StronglySorted key_le).
  - destruct plain as [|first rest];
      [intros i a b Ha; by rewrite lookup_nil in Ha|].
    apply no_touching_Sorted, sweep_apart.
  - destruct plain as [|first rest]; [done|apply sweep_length].
  - destruct plain as [|first rest]; [by intros r ?%not_elem_of_nil|].
    intros r. by apply sweep_inside, (Sorted_StronglySorted key_le).
  - intros z. rewrite <- covers_unmerged. fold plain.
    destruct plain as [|first rest]; [done|].
    by apply sweep_covers, (Sorted_StronglySorted key_le).
Qed.

(** X7. The result of [parse_ranges] depends on the text only through
    the set of ranges its matches parse to: two texts with the same set
    give the same list, whatever the order, the repetitions and the
    invalid matches. *)
Theorem parse_ranges_same_ranges (text1 text2 : str) (merge : bool) :
  (∀ r, (∃ m, m ∈ findall text1 ∧ try_parse m = Some r)
        ↔ (∃ m, m ∈ findall text2 ∧ try_parse m = Some r)) →
  parse_ranges text1 merge = parse_ranges text2 merge.
Proof.
  intros H. rewrite !parse_ranges_unfold, !parse_ranges_with_unfold.
  by rewrite (collect_ext _ _ H).
Qed.

End Pipeline.

(** * The matcher *)

Lemma findall_unfold ud ua text : findall ud ua text = scan ud ua None text 0.
Proof. reflexivity. Qed.

Lemma at_boundary_unfold ua cur :
  at_boundary ua cur
  = xorb (word_at ua (cur_prev cur)) (word_at ua (head (cur_rest cur))).
Proof. reflexivity. Qed.

Lemma re_word_unfold ua c :
  re_word ua c
  = if (c <? 128)%N then is_ascii_alnum c || N.eqb c 95 else ua c.
Proof. reflexivity. Qed.

Section Matcher.
Variable unicode_decimal : N → bool.
Variable unicode_alnum : N → bool.

Local Abbreviation re_digit := (re_digit unicode_decimal).
Local Abbreviation re_word := (re_word unicode_alnum).
Local Abbreviation word_at := (word_at unicode_alnum).
Local Abbreviation at_boundary := (at_boundary unicode_alnum).
Local Abbreviation run := (run unicode_decimal unicode_alnum).
Local Abbreviation match_here := (match_here unicode_decimal unicode_alnum).
Local Abbreviation scan := (scan unicode_decimal unicode_alnum).
Local Abbreviation findall := (findall unicode_decimal unicode_alnum).

Section Simulation.
Variable R : cursor → cursor → Prop.
Hypothesis R_boundary : ∀ c1 c2, R c1 c2 → at_boundary c1 = at_boundary c2.

Lemma rep_loop_alike body :
  (∀ k1 k2, alike R k1 k2 → alike R (λ c, body c k1) (λ c, body c k2)) →
  ∀ hi lo k1 k2, alike R k1 k2 →
    alike R (rep_loop body k1 lo hi) (rep_loop body k2 lo hi).
Proof.
  intros Hbody. induction hi as [|hi IH]; intros lo k1 k2 Hk c1 c2 Hc; simpl.
  - destruct lo; [by apply Hk|constructor].
  - pose proof (Hbody _ _ (IH (pred lo) _ _ Hk) c1 c2 Hc) as Hb. simpl in Hb.
    destruct Hb as [f1 f2 Hf|]; [by constructor|].
    destruct lo; [by apply Hk|constructor].
Qed.

Lemma run_alike r :
  eats_alike R re_digit →
  (∀ c, literal_of c r → eats_alike R (λ x, N.eqb x c)) →
  ∀ k1 k2, alike R k1 k2 → alike R (λ c, run r c k1) (λ c, run r c k2).
Proof.
  intros Hdigit. induction r as [c| | |r1 IH1 r2 IH2|lo hi r IH];
    intros Hlit k1 k2 Hk c1 c2 Hc; simpl.
  - pose proof (Hlit c eq_refl c1 c2 Hc) as He. unfold eat in He.
    destruct (cur_rest c1) as [|x1 t1], (cur_rest c2) as [|x2 t2];
      try destruct (N.eqb x1 c); try destruct (N.eqb x2 c);
      inversion He; subst; try constructor; by apply Hk.
  - pose proof (Hdigit c1 c2 Hc) as He. unfold eat in He.
    destruct (cur_rest c1) as [|x1 t1], (cur_rest c2) as [|x2 t2];
      try destruct (re_digit x1); try destruct (re_digit x2);
      inversion He; subst; try constructor; by apply Hk.
  - rewrite (R_boundary c1 c2 Hc).
    destruct (at_boundary c2); [by apply Hk|constructor].
  - apply (IH1 (λ c H, Hlit c (or_introl H))
               (λ c, run r2 c k1) (λ c, run r2 c k2)); [|done].
    apply IH2; [|done]. intros c H. apply Hlit. by right.
  - apply (rep_loop_alike (run r)); [|done..].
    intros k1' k2' Hk'. by apply IH.
Qed.

End Simulation.

End Matcher.

Lemma candidate_not_nil o0 o1 o2 o3 p : candidate o0 o1 o2 o3 p ≠ [].
Proof.
  unfold candidate. pose proof (dotted_not_nil o0 o1 o2 o3).
  by destruct (dotted o0 o1 o2 o3).
Qed.

Lemma literal_of_IP_CIDR_RE c : literal_of c IP_CIDR_RE → c = DOT ∨ c = SLASH.
Proof. simpl. tauto. Qed.

Section Separators.
Variable unicode_decimal : N → bool.
Variable unicode_alnum : N → bool.

Local Abbreviation re_digit := (re_digit unicode_decimal).
Local Abbreviation re_word := (re_word unicode_alnum).
Local Abbreviation word_at := (word_at unicode_alnum).
Local Abbreviation at_boundary := (at_boundary unicode_alnum).
Local Abbreviation run := (run unicode_decimal unicode_alnum).
Local Abbreviation match_here := (match_here unicode_decimal unicode_alnum).
Local Abbreviation scan := (scan unicode_decimal unicode_alnum).
Local Abbreviation findall := (findall unicode_decimal unicode_alnum).
Local Abbreviation separator := (separator unicode_decimal unicode_alnum).
Local Abbreviation run_alike := (run_alike unicode_decimal unicode_alnum).

(** *** Matches are pieces of the text *)

Lemma match_here_prefix prev text m :
  match_here prev text = Some m → m ≠ [] ∧ ∃ rest, text = m ++ rest.
Proof.
  intros Hm. split.
  - apply match_here_shape in Hm as (o0 & o1 & o2 & o3 & p & -> & _).
    apply candidate_not_nil.
  - revert Hm. rewrite match_here_unfold.
    intros (cur & (s & cur' & _ & [Hr Ht] & [= <-])%run_sound & [= <-])%bind_Some.
    simpl in *. exists (cur_rest cur').
    by rewrite Ht, app_nil_r, reverse_involutive.
Qed.

Lemma scan_skip prev a t :
  a ≠ [] → scan prev (a ++ t) (length a) = scan (last a) t 0.
Proof.
  revert prev. induction a as [|c a IH]; intros prev Ha; [done|]. simpl.
  destruct a as [|c' a]; [done|]. by rewrite IH.
Qed.

Lemma scan_match prev m rest :
  match_here prev (m ++ rest) = Some m →
  scan prev (m ++ rest) 0 = m :: scan (last m) rest 0.
Proof.
  intros Hm. destruct (match_here_prefix _ _ _ Hm) as [Hne _].
  destruct m as [|c m]; [done|]. simpl in *. rewrite Hm. f_equal.
  replace (length (c :: m) - 1)%nat with (length m) by (simpl; lia).
  destruct m as [|c' m]; [done|].
  by rewrite (scan_skip (Some c) (c' :: m) rest).
Qed.

Lemma carved_skip c text ms : carved text ms → carved (c :: text) ms.
Proof.
  intros (gaps & tail & Hlen & ->).
  destruct gaps as [|g gaps], ms as [|m ms]; try done.
  - exists [], (c :: tail). done.
  - exists ((c :: g) :: gaps), tail. done.
Qed.

Lemma carved_match m text ms : carved text ms → carved (m ++ text) (m :: ms).
Proof.
  intros (gaps & tail & Hlen & ->). exists ([] :: gaps), tail.
  split; [simpl; by rewrite Hlen|]. simpl. by rewrite <- app_assoc.
Qed.

Lemma scan_carved_from n : ∀ text prev,
  (length text ≤ n)%nat → carved text (scan prev text 0).
Proof.
  induction n as [|n IH]; intros text prev Hlen.
  - destruct text; [|simpl in Hlen; lia]. by exists [], [].
  - destruct text as [|c t]; [by exists [], []|].
    destruct (match_here prev (c :: t)) as [m|] eqn:Hm.
    + destruct (match_here_prefix _ _ _ Hm) as [Hne [rest Heq]].
      rewrite Heq in Hm |- *. rewrite (scan_match _ _ _ Hm).
      apply carved_match, IH.
      apply (f_equal length) in Heq. rewrite length_app in Heq. simpl in *.
      destruct m; [done|]. simpl in *. lia.
    + simpl. rewrite Hm. apply carved_skip, IH. simpl in Hlen. lia.
Qed.

(** *** Text beyond a separator does not change a match *)

Lemma at_boundary_extend sep more cur :
  re_word sep = false →
  at_boundary (extend (sep :: more) cur) = at_boundary cur.
Proof.
  intros Hsep. rewrite !at_boundary_unfold. unfold extend. simpl.
  destruct (cur_rest cur); simpl; [by rewrite Hsep|done].
Qed.

Lemma eat_extend P sep more cur :
  P sep = false →
  eat P (extend (sep :: more) cur) = extend (sep :: more) <$> eat P cur.
Proof.
  intros Hsep. unfold eat, extend. simpl.
  destruct (cur_rest cur) as [|x t]; simpl; [by rewrite Hsep|].
  by destruct (P x).
Qed.

Lemma match_here_extend prev text sep more :
  separator sep →
  match_here prev (text ++ sep :: more) = match_here prev text.
Proof.
  intros (Hw & Hd & Hdot & Hslash).
  rewrite !match_here_unfold.
  set (R := λ c1 c2 : cursor, c2 = extend (sep :: more) c1).
  assert (agree R (run IP_CIDR_RE (Cursor prev [] text) Some)
                  (run IP_CIDR_RE (Cursor prev [] (text ++ sep :: more)) Some))
    as Hrun.
  { apply (run_alike R); [| | | |done].
    - intros c1 c2 ->. by rewrite at_boundary_extend.
    - intros c1 c2 ->. rewrite eat_extend by done.
      destruct (eat _ c1); by constructor.
    - intros c [-> | ->]%literal_of_IP_CIDR_RE c1 c2 ->;
        (rewrite eat_extend by by apply N.eqb_neq);
        destruct (eat _ c1); by constructor.
    - intros c1 c2 ->. by constructor. }
  destruct Hrun as [f1 f2 ->|]; done.
Qed.

Lemma match_here_prev prev1 prev2 text :
  word_at prev1 = word_at prev2 →
  match_here prev1 text = match_here prev2 text.
Proof.
  intros Hw. rewrite !match_here_unfold.
  set (R := λ c1 c2 : cursor,
         word_at (cur_prev c1) = word_at (cur_prev c2)
         ∧ cur_taken c1 = cur_taken c2 ∧ cur_rest c1 = cur_rest c2).
  assert (∀ P, eats_alike R P) as Heat.
  { intros P c1 c2 (_ & Ht & Hr). unfold eat, advance. rewrite Hr, Ht.
    destruct (cur_rest c2) as [|x t]; [constructor|].
    destruct (P x); by constructor. }
  assert (agree R (run IP_CIDR_RE (Cursor prev1 [] text) Some)
                  (run IP_CIDR_RE (Cursor prev2 [] text) Some)) as Hrun.
  { apply (run_alike R); [|done|by intros|by constructor|done].
    intros c1 c2 (Hp & _ & Hr). rewrite !at_boundary_unfold. by rewrite Hp, Hr. }
  destruct Hrun as [f1 f2 (_ & Ht & _)|]; simpl; [by rewrite Ht|done].
Qed.

Lemma scan_prev prev1 prev2 text skip :
  word_at prev1 = word_at prev2 → scan prev1 text skip = scan prev2 text skip.
Proof.
  intros Hw. destruct text as [|c t]; [done|]. simpl.
  destruct skip; [|done]. by rewrite (match_here_prev prev1 prev2).
Qed.

Lemma match_here_nil prev : match_here prev [] = None.
Proof.
  rewrite match_here_unfold. simpl. by destruct (at_boundary _).
Qed.

Lemma scan_separator sep text more : ∀ prev skip,
  separator sep → (skip ≤ length text)%nat →
  scan prev (text ++ sep :: more) skip = scan prev text skip ++ findall more.
Proof.
  intros prev skip Hsep. revert prev skip.
  induction text as [|c t IH]; intros prev skip Hskip.
  - destruct skip; [|simpl in Hskip; lia]. simpl.
    pose proof (match_here_extend prev [] sep more Hsep) as Hm.
    simpl in Hm. rewrite Hm, match_here_nil.
    apply scan_prev. simpl. apply Hsep.
  - simpl. destruct skip as [|n]; [|apply IH; simpl in Hskip; lia].
    pose proof (match_here_extend prev (c :: t) sep more Hsep) as Hx.
    simpl in Hx. rewrite Hx. clear Hx.
    destruct (match_here prev (c :: t)) as [m|] eqn:Hm; [|apply IH; lia].
    simpl. f_equal. apply IH.
    destruct (match_here_prefix _ _ _ Hm) as [_ [rest Heq]].
    apply (f_equal length) in Heq. rewrite length_app in Heq. simpl in Heq. lia.
Qed.

End Separators.

Lemma after_nil cur : after [] (cur_rest cur) cur = cur.
Proof. by destruct cur. Qed.

Lemma after_cons c s t cur :
  after (c :: s) t cur = after s t (advance c (s ++ t) cur).
Proof.
  unfold after, advance. simpl. rewrite last_cons, reverse_cons.
  rewrite <- (assoc_L (++)). simpl. by destruct (last s).
Qed.

Lemma after_after s1 t1 s2 t2 cur :
  after s2 t2 (after s1 t1 cur) = after (s1 ++ s2) t2 cur.
Proof.
  unfold after. simpl. rewrite last_app, reverse_app, (assoc_L (++)).
  by destruct (last s2).
Qed.

Lemma after_snoc s c t cur :
  advance c t (after s (c :: t) cur) = after (s ++ [c]) t cur.
Proof.
  unfold after, advance. simpl. by rewrite last_snoc, reverse_app.
Qed.

Section Candidates.
Variable unicode_decimal : N → bool.
Variable unicode_alnum : N → bool.

Local Abbreviation re_digit := (re_digit unicode_decimal).
Local Abbreviation re_word := (re_word unicode_alnum).
Local Abbreviation word_at := (word_at unicode_alnum).
Local Abbreviation at_boundary := (at_boundary unicode_alnum).
Local Abbreviation run := (run unicode_decimal unicode_alnum).
Local Abbreviation match_here := (match_here unicode_decimal unicode_alnum).
Local Abbreviation scan := (scan unicode_decimal unicode_alnum).
Local Abbreviation findall := (findall unicode_decimal unicode_alnum).
Local Abbreviation separator := (separator unicode_decimal unicode_alnum).
Local Abbreviation delimited := (delimited unicode_decimal unicode_alnum).

Lemma ascii_digit_classes c :
  is_ascii_digit c = true → re_digit c = true ∧ re_word c = true.
Proof.
  intros Hc. pose proof (proj1 (is_ascii_digit_range c) Hc).
  rewrite re_digit_unfold, re_word_unfold. unfold is_ascii_alnum.
  destruct (N.ltb_spec c 128); [|lia]. by rewrite Hc.
Qed.

Lemma rep_loop_S body k lo hi cur :
  rep_loop body k lo (S hi) cur
  = match body cur (rep_loop body k (pred lo) hi) with
    | Some found => Some found
    | None => match lo with O => k cur | S _ => None end
    end.
Proof. reflexivity. Qed.

(** A greedy run of digits takes them all when the rest of the pattern
    succeeds after them. *)
Lemma digits_greedy ds : ∀ lo hi cur t k found,
  cur_rest cur = ds ++ t →
  Forall (λ c, re_digit c = true) ds →
  (lo ≤ length ds ≤ hi)%nat →
  (∀ x, head t = Some x → re_digit x = false) →
  k (after ds t cur) = Some found →
  rep_loop (run Digit) k lo hi cur = Some found.
Proof.
  induction ds as [|d ds IH]; intros lo hi cur t k found Hrest Hds Hlen Hstop Hk.
  - simpl in *. rewrite <- Hrest, after_nil in Hk.
    assert (lo = 0%nat) as -> by lia.
    destruct hi as [|hi]; [done|]. rewrite rep_loop_S. simpl.
    rewrite Hrest. destruct t as [|x t']; [done|].
    by rewrite (Hstop x eq_refl).
  - apply Forall_cons in Hds as [Hd Hds]. simpl in Hlen.
    destruct hi as [|hi]; [lia|]. rewrite rep_loop_S. simpl.
    rewrite Hrest. simpl. rewrite Hd.
    rewrite (IH (pred lo) hi _ t k found); [done|done|done|lia|done|].
    by rewrite <- after_cons.
Qed.

Lemma run_Cat r1 r2 cur k :
  run (Cat r1 r2) cur k = run r1 cur (λ cur', run r2 cur' k).
Proof. reflexivity. Qed.

Lemma run_Rep lo hi r cur k :
  run (Rep lo hi r) cur k = rep_loop (run r) k lo hi cur.
Proof. reflexivity. Qed.

Lemma run_Boundary cur k :
  run Boundary cur k = if at_boundary cur then k cur else None.
Proof. reflexivity. Qed.

Lemma run_Chr c cur k :
  run (Chr c) cur k
  = match cur_rest cur with
    | x :: t => if N.eqb x c then k (advance x t cur) else None
    | [] => None
    end.
Proof. reflexivity. Qed.

Lemma ascii_group_digits max s :
  ascii_group max s → Forall (λ c, re_digit c = true) s.
Proof.
  intros [_ H]. eapply Forall_impl; [exact H|].
  intros c Hc. by apply ascii_digit_classes.
Qed.

Lemma ascii_group_last max s :
  ascii_group max s → ∃ c, last s = Some c ∧ re_word c = true.
Proof.
  intros [Hlen H]. destruct (last s) as [c|] eqn:Hl.
  - exists c. split; [done|]. apply ascii_digit_classes.
    rewrite Forall_forall in H. by apply H, last_Some_elem_of.
  - apply last_None in Hl as ->. simpl in Hlen. lia.
Qed.

Lemma ascii_group_head max s t :
  ascii_group max s → ∃ c, head (s ++ t) = Some c ∧ re_word c = true.
Proof.
  intros [Hlen H]. destruct s as [|c s]; [simpl in Hlen; lia|].
  exists c. split; [done|]. apply ascii_digit_classes.
  by apply Forall_cons in H as [? _].
Qed.

(** One [\d{1,3}\.] group. *)
Lemma octet_dot_step o t cur k found :
  ascii_group 3 o →
  cur_rest cur = o ++ DOT :: t →
  k (after (o ++ [DOT]) t cur) = Some found →
  run (Cat (Rep 1 3 Digit) (Chr DOT)) cur k = Some found.
Proof.
  intros Ho Hrest Hk. rewrite run_Cat, run_Rep.
  apply (digits_greedy o 1%nat 3%nat cur (DOT :: t)).
  - done.
  - by eapply ascii_group_digits.
  - apply Ho.
  - by intros x [= <-].
  - rewrite run_Chr. simpl. by rewrite after_snoc.
Qed.

(** A candidate with ASCII digits that stands between a non-word
    position and a delimiter is matched whole. *)
Lemma match_here_candidate prev o0 o1 o2 o3 p rest :
  word_at prev = false →
  Forall (ascii_group 3) [o0; o1; o2; o3] →
  from_option (ascii_group 2) True p →
  delimited rest →
  match_here prev (candidate o0 o1 o2 o3 p ++ rest)
  = Some (candidate o0 o1 o2 o3 p).
Proof.
  intros Hprev (Ho0 & Ho1 & Ho2 & Ho3)%Forall_four Hp Hrest.
  set (ptail := match p with Some q => SLASH :: q | None => [] end).
  set (t3 := o3 ++ ptail ++ rest).
  set (t2 := o2 ++ DOT :: t3).
  set (t1 := o1 ++ DOT :: t2).
  assert (candidate o0 o1 o2 o3 p ++ rest = o0 ++ DOT :: t1) as Htext.
  { unfold candidate, dotted, t1, t2, t3. fold ptail.
    by repeat (rewrite <- app_assoc || simpl). }
  set (c0 := Cursor prev [] (o0 ++ DOT :: t1)).
  set (c1 := after (o0 ++ [DOT]) t1 c0).
  set (c2 := after (o1 ++ [DOT]) t2 c1).
  set (c3 := after (o2 ++ [DOT]) t3 c2).
  set (c4 := after o3 (ptail ++ rest) c3).
  set (cend := after ptail rest c4).
  assert (cur_taken cend = reverse (candidate o0 o1 o2 o3 p)) as Htaken.
  { unfold cend, c4, c3, c2, c1. rewrite !after_after. simpl.
    rewrite app_nil_r. f_equal. unfold candidate, dotted. fold ptail.
    by repeat (rewrite <- app_assoc || simpl). }
  assert (∀ x, head rest = Some x → re_word x = false) as Hnw
    by (intros x Hx; apply (Hrest x Hx)).
  assert (∀ x, head rest = Some x → re_digit x = false) as Hnd
    by (intros x Hx; apply (Hrest x Hx)).
  assert (word_at (head rest) = false) as Hwrest.
  { destruct (head rest) as [x|] eqn:Hx; [by apply Hnw|done]. }
  (* the closing \b *)
  assert (run Boundary cend Some = Some cend) as Hend.
  { rewrite run_Boundary, at_boundary_unfold. simpl cur_rest.
    rewrite Hwrest, xorb_false_r.
    assert (∃ c, cur_prev cend = Some c ∧ re_word c = true) as (c & -> & Hc).
    { unfold cend, c4. rewrite after_after. unfold after. simpl cur_prev.
      rewrite last_app. unfold ptail. destruct p as [q|]; simpl in Hp.
      - apply (ascii_group_last 2 q) in Hp as (c & Hl & Hc). exists c.
        by rewrite last_cons, Hl.
      - apply (ascii_group_last 3 o3) in Ho3 as (c & Hl & Hc). exists c.
        by rewrite Hl. }
    simpl. by rewrite Hc. }
  (* the optional group and the closing \b *)
  assert (run (Cat (Rep 0 1 (Cat (Chr SLASH) (Rep 1 2 Digit))) Boundary) c4 Some
          = Some cend) as Hopt.
  { rewrite run_Cat, run_Rep, rep_loop_S, run_Cat, run_Chr.
    unfold cend, ptail in *. destruct p as [q|]; simpl in Hp.
    - simpl cur_rest. cbv beta iota. rewrite N.eqb_refl, run_Rep.
      rewrite (digits_greedy q 1%nat 2%nat _ rest _ (after (SLASH :: q) rest c4));
        [done|done|by eapply ascii_group_digits|apply Hp|done|].
      simpl. rewrite <- after_cons. exact Hend.
    - simpl cur_rest. simpl app in *.
      assert (after [] rest c4 = c4) as Hc4 by apply (after_nil c4).
      rewrite Hc4 in Hend.
      destruct rest as [|x rest']; [exact Hend|].
      destruct (N.eqb_spec x SLASH) as [->|_]; [|exact Hend].
      by destruct (Hrest SLASH eq_refl) as (_ & _ & _ & ?). }
  (* the fourth group *)
  assert (run (Cat (Rep 1 3 Digit)
            (Cat (Rep 0 1 (Cat (Chr SLASH) (Rep 1 2 Digit))) Boundary)) c3 Some
          = Some cend) as Hlast.
  { rewrite run_Cat, run_Rep.
    apply (digits_greedy o3 1%nat 3%nat c3 (ptail ++ rest));
      [done|by eapply ascii_group_digits|apply Ho3| |exact Hopt].
    unfold ptail. destruct p as [q|]; simpl; [by intros x [= <-]|done]. }
  rewrite Htext, match_here_unfold. fold c0.
  assert (run IP_CIDR_RE c0 Some = Some cend) as ->.
  2:{ change (Some (reverse (cur_taken cend)) = Some (candidate o0 o1 o2 o3 p)).
      by rewrite Htaken, reverse_involutive. }
  unfold IP_CIDR_RE. rewrite run_Cat, run_Boundary.
  assert (at_boundary c0 = true) as ->.
  { rewrite at_boundary_unfold. simpl cur_prev. simpl cur_rest. rewrite Hprev.
    destruct (ascii_group_head 3 o0 (DOT :: t1) Ho0) as (c & -> & Hc).
    simpl. by rewrite Hc. }
  rewrite run_Cat, run_Rep.
  rewrite rep_loop_S, (octet_dot_step o0 t1 c0 _ cend); [done|done|done|].
  fold c1. simpl pred.
  rewrite rep_loop_S, (octet_dot_step o1 t2 c1 _ cend); [done|done|done|].
  fold c2. simpl pred.
  rewrite rep_loop_S, (octet_dot_step o2 t3 c2 _ cend); [done|done|done|].
  fold c3. simpl pred. exact Hlast.
Qed.

Lemma findall_separator text sep more :
  separator sep → findall (text ++ sep :: more) = findall text ++ findall more.
Proof.
  intros Hsep. rewrite !findall_unfold, scan_separator by (done || lia).
  by rewrite findall_unfold.
Qed.

Lemma findall_alone o0 o1 o2 o3 p :
  Forall (ascii_group 3) [o0; o1; o2; o3] →
  from_option (ascii_group 2) True p →
  findall (candidate o0 o1 o2 o3 p) = [candidate o0 o1 o2 o3 p].
Proof.
  intros Ho Hp.
  pose proof (match_here_candidate None o0 o1 o2 o3 p [] eq_refl Ho Hp) as Hm.
  rewrite <- (app_nil_r (candidate o0 o1 o2 o3 p)) at 1.
  rewrite findall_unfold, scan_match; [|apply Hm; by intros x [=]].
  done.
Qed.

End Candidates.

(** * Rendering *)

Ltac unfold_address_str := unfold address_str.
Ltac unfold_format_range := unfold format_range.
Ltac unfold_render := unfold render in *.
Ltac unfold_main := unfold main.
Ltac unfold_produces := unfold produces.

Lemma ascii_group_check_sound max s :
  ascii_group_check max s = true → ascii_group max s.
Proof.
  unfold ascii_group_check, ascii_group.
  rewrite !andb_true_iff, !Nat.leb_le, forallb_forall, Forall_forall.
  intros [[? ?] Hall]. split; [lia|]. intros c Hc. by apply Hall, list_elem_of_In.
Qed.

Lemma byte_cases (P : Z → Prop) :
  (∀ k : nat, (k ≤ 255)%nat → P (Z.of_nat k)) → ∀ b, 0 ≤ b ≤ 255 → P b.
Proof. intros H b Hb. rewrite <- (Z2Nat.id b) by lia. apply H. lia. Qed.

(** The text of a byte is an octet that parses back to the byte. *)
Lemma byte_text b :
  0 ≤ b ≤ 255 →
  parse_octet (str_of_int b) = Some b
  ∧ ascii_group_check 3 (str_of_int b) = true.
Proof.
  intros Hb. pattern b. apply byte_cases; [|done].
  intros k Hk. do 256 (destruct k as [|k]; [by vm_compute|]). lia.
Qed.

Lemma bytes_big_value n :
  0 ≤ n ≤ ALL_ONES →
  Forall (λ b, 0 ≤ b ≤ 255) (bytes_big 4 n)
  ∧ from_bytes_big (bytes_big 4 n) = n.
Proof.
  change ALL_ONES with (2 ^ 32 - 1). intros Hn. simpl. rewrite from_bytes_big_4.
  split.
  - apply Forall_four. Z.div_mod_to_equations. lia.
  - Z.div_mod_to_equations. lia.
Qed.

Lemma to_bytes_big_4 n :
  0 ≤ n ≤ ALL_ONES → to_bytes_big 4 n = Some (bytes_big 4 n).
Proof.
  change ALL_ONES with (2 ^ 32 - 1). intros Hn. unfold to_bytes_big.
  destruct (Z.ltb_spec n 0); [lia|].
  destruct (Z.leb_spec (256 ^ Z.of_nat 4) n) as [Hb|]; [|done].
  change (256 ^ Z.of_nat 4) with (2 ^ 32) in Hb. lia.
Qed.

(** The text of a 32-bit address: four octets that parse back to it. *)
Lemma string_from_ip_int_dotted v :
  0 ≤ v ≤ ALL_ONES →
  ∃ o0 o1 o2 o3,
    string_from_ip_int v = Some (dotted o0 o1 o2 o3)
    ∧ Forall (ascii_group 3) [o0; o1; o2; o3]
    ∧ Forall plain_octet [o0; o1; o2; o3]
    ∧ address_value o0 o1 o2 o3 = v.
Proof.
  intros Hv. destruct (bytes_big_value v Hv) as [Hb Hval].
  unfold string_from_ip_int. rewrite to_bytes_big_4 by done.
  remember (bytes_big 4 v) as bs eqn:Hbs.
  destruct bs as [|b0 [|b1 [|b2 [|b3 [|]]]]]; try done.
  apply Forall_four in Hb as (H0 & H1 & H2 & H3).
  apply byte_text in H0 as [P0 G0], H1 as [P1 G1], H2 as [P2 G2], H3 as [P3 G3].
  exists (str_of_int b0), (str_of_int b1), (str_of_int b2), (str_of_int b3).
  apply parse_octet_Some in P0 as [Q0 E0], P1 as [Q1 E1], P2 as [Q2 E2],
    P3 as [Q3 E3].
  split_and!.
  - reflexivity.
  - apply Forall_four. split_and!; by apply ascii_group_check_sound.
  - by apply Forall_four.
  - rewrite from_bytes_big_4 in Hval. unfold address_value.
    by rewrite <- E0, <- E1, <- E2, <- E3.
Qed.

Section Rendering.
Variable unicode_decimal : N → bool.
Variable unicode_alnum : N → bool.
Variable ipv6_str : Z → str.

Local Abbreviation findall := (findall unicode_decimal unicode_alnum).
Local Abbreviation parse_ranges := (parse_ranges unicode_decimal unicode_alnum).
Local Abbreviation separator := (separator unicode_decimal unicode_alnum).
Local Abbreviation address_str := (address_str ipv6_str).
Local Abbreviation format_range := (format_range ipv6_str).

Lemma separator_DASH : separator DASH.
Proof. by split_and!. Qed.

Lemma separator_NEWLINE : separator NEWLINE.
Proof. by split_and!. Qed.

Lemma address_str_32 v :
  0 ≤ v ≤ ALL_ONES → address_str v = string_from_ip_int v.
Proof.
  intros Hv. unfold_address_str. by rewrite IPv4Address_of_int_Some.
Qed.

(** The text of a 32-bit address is found by the pattern when it stands
    alone, and parses back to the address. *)
Lemma address_str_round_trip v :
  0 ≤ v ≤ ALL_ONES →
  ∃ t, address_str v = Some t
    ∧ findall t = [t]
    ∧ try_parse t = Some (v, v)
    ∧ (DASH ∉ t) ∧ (NEWLINE ∉ t).
Proof.
  intros Hv. rewrite address_str_32 by done.
  destruct (string_from_ip_int_dotted v Hv) as (o0 & o1 & o2 & o3 & -> & Hg & Hp & <-).
  exists (dotted o0 o1 o2 o3). rewrite <- candidate_None.
  split_and!; [by rewrite candidate_None|by apply findall_alone|by apply try_parse_plain|..].
  all: rewrite candidate_None; unfold dotted;
    apply Forall_four in Hg as ([_ G0] & [_ G1] & [_ G2] & [_ G3]);
    rewrite Forall_forall in G0, G1, G2, G3;
    repeat apply not_elem_of_join; try done;
    intros Hc; (apply G0 in Hc || apply G1 in Hc || apply G2 in Hc || apply G3 in Hc);
    done.
Qed.

Lemma address_str_None v :
  address_str v = None ↔ ¬ 0 ≤ v ≤ 2 ^ 128 - 1.
Proof.
  destruct (decide (0 ≤ v ≤ ALL_ONES)) as [Hv|Hv].
  - rewrite address_str_32 by done.
    destruct (string_from_ip_int_dotted v Hv) as (o0 & o1 & o2 & o3 & -> & _).
    change ALL_ONES with (2 ^ 32 - 1) in Hv. split; [done|lia].
  - unfold_address_str; unfold IPv4Address_of_int.
    destruct (Z.ltb_spec v 0); [split; [lia|done]|].
    destruct (Z.ltb_spec ALL_ONES v); [|lia].
    destruct (Z.ltb_spec (2 ^ 128 - 1) v); split; (done || lia).
Qed.

Lemma format_range_32 s e :
  0 ≤ s ≤ ALL_ONES → 0 ≤ e ≤ ALL_ONES →
  ∃ first second,
    format_range s e = Some (first ++ DASH :: second)
    ∧ findall (first ++ DASH :: second) = [first; second]
    ∧ try_parse first = Some (s, s) ∧ try_parse second = Some (e, e)
    ∧ (DASH ∉ first) ∧ (NEWLINE ∉ first ++ DASH :: second).
Proof.
  intros Hs He.
  destruct (address_str_round_trip s Hs) as (ts & Hts & Hfs & Hps & Hds & Hns).
  destruct (address_str_round_trip e He) as (te & Hte & Hfe & Hpe & Hde & Hne).
  exists ts, te. unfold_format_range. rewrite Hts, Hte.
  split_and!; [done| |done..|].
  - by rewrite (findall_separator _ _ _ _ _ separator_DASH), Hfs, Hfe.
  - by apply not_elem_of_join.
Qed.

Lemma join_unique (c : N) (a b a' b' : str) :
  c ∉ a → c ∉ a' → a ++ c :: b = a' ++ c :: b' → a = a' ∧ b = b'.
Proof.
  intros Ha Ha' Heq.
  pose proof (f_equal (str_split c) Heq) as Hs.
  rewrite !str_split_app in Hs by done. injection Hs as -> _.
  split; [done|]. by apply app_inv_head in Heq as [= ->].
Qed.

End Rendering.

(** * The program *)

Lemma str_split_join (c : N) (lines : list str) :
  lines ≠ [] → Forall (λ line, c ∉ line) lines →
  str_split c (str_join [c] lines) = lines.
Proof.
  induction lines as [|line lines IH]; intros Hne Hall; [done|].
  apply Forall_cons in Hall as [Hline Hall].
  destruct lines as [|line' lines].
  - simpl. by apply str_split_whole.
  - change (str_join [c] (line :: line' :: lines))
      with (line ++ c :: str_join [c] (line' :: lines)).
    rewrite str_split_app by done. f_equal. by apply IH.
Qed.

Lemma scan_args_facts n : ∀ args o m,
  (length args ≤ n)%nat →
  ((scan_args args o m).2 = true → m = true ∨ str_of "--merge" ∈ args)
  ∧ (∀ v, (scan_args args o m).1 = Some v →
       o = Some v ∨ ∃ pre post, args = pre ++ str_of "--out" :: v :: post)
  ∧ (str_of "--out" ∉ args →
       (scan_args args o m).1 = o
       ∧ ((scan_args args o m).2 = true ↔ m = true ∨ str_of "--merge" ∈ args)).
Proof.
  induction n as [|n IH]; intros args o m Hlen.
  - destruct args; [|simpl in Hlen; lia]. simpl.
    split_and!; [by left|by left|]. intros _. split; [done|].
    split; [by left|]. by intros [?|?%not_elem_of_nil].
  - destruct args as [|arg rest].
    { simpl. split_and!; [by left|by left|]. intros _. split; [done|].
      split; [by left|]. by intros [?|?%not_elem_of_nil]. }
    simpl in Hlen. simpl.
    destruct (bool_decide_reflect (arg = str_of "--merge")) as [->|Hmerge].
    { destruct (IH rest o true ltac:(lia)) as (H1 & H2 & H3). split_and!.
      - intros _. right. by left.
      - intros v [?|(pre & post & ->)]%H2; [by left|].
        right. by exists (str_of "--merge" :: pre), post.
      - intros Hout%not_elem_of_cons. destruct Hout as [_ Hout].
        destruct (H3 Hout) as [-> Hm]. split; [done|].
        split; [intros _; right; by left|]. intros _. apply Hm. by left. }
    destruct rest as [|value rest'].
    { split_and!.
      - by left.
      - by left.
      - intros _. split; [done|]. split; [by left|].
        intros [?|[?|?%not_elem_of_nil]%elem_of_cons]; done. }
    destruct (bool_decide_reflect (arg = str_of "--out")) as [->|Hout].
    { destruct (IH rest' (Some value) m ltac:(simpl in *; lia)) as (H1 & H2 & H3).
      split_and!.
      - intros [?|?]%H1; [by left|]. right. by do 2 right.
      - intros v [[= ->]|(pre & post & ->)]%H2.
        + right. by exists [], rest'.
        + right. by exists (str_of "--out" :: value :: pre), post.
      - intros []%not_elem_of_cons. done. }
    destruct (IH (value :: rest') o m ltac:(simpl in *; lia)) as (H1 & H2 & H3).
    split_and!.
    + intros [?|?]%H1; [by left|]. right. by right.
    + intros v [?|(pre & post & Heq)]%H2; [by left|].
      right. exists (arg :: pre), post. by rewrite Heq.
    + intros [_ Hno]%not_elem_of_cons. destruct (H3 Hno) as [-> Hm].
      split; [done|]. rewrite Hm. split.
      * intros [?|?]; [by left|]. right. by right.
      * intros [?|[?|?]%elem_of_cons]; [by left|done|by right].
Qed.

(** X8. The option loop of [main] sets [merge] only if [--merge] is among
    the arguments, and sets [out_path] only to an argument that directly
    follows an [--out]; when no argument is [--out], [out_path] stays
    unset and [merge] is set exactly when [--merge] occurs. *)
Theorem scan_args_reads (args : list str) :
  ((scan_args args None false).2 = true → str_of "--merge" ∈ args)
  ∧ (∀ v, (scan_args args None false).1 = Some v →
       ∃ pre post, args = pre ++ str_of "--out" :: v :: post)
  ∧ (str_of "--out" ∉ args →
       (scan_args args None false).1 = None
       ∧ ((scan_args args None false).2 = true ↔ str_of "--merge" ∈ args)).
Proof.
  destruct (scan_args_facts (length args) args None false ltac:(done))
    as (H1 & H2 & H3).
  split_and!.
  - by intros [?|?]%H1.
  - by intros v [?|?]%H2.
  - intros Hno. destruct (H3 Hno) as [-> Hm]. split; [done|].
    rewrite Hm. split; [by intros [?|?]|by right].
Qed.

Section Program.
Variable unicode_decimal : N → bool.
Variable unicode_alnum : N → bool.
Variable ipv6_str : Z → str.

Local Abbreviation findall := (findall unicode_decimal unicode_alnum).
Local Abbreviation parse_ranges := (parse_ranges unicode_decimal unicode_alnum).
Local Abbreviation address_str := (address_str ipv6_str).
Local Abbreviation format_range := (format_range ipv6_str).
Local Abbreviation render := (render ipv6_str).
Local Abbreviation main := (main unicode_decimal unicode_alnum ipv6_str).
Local Abbreviation rendered := (rendered unicode_decimal unicode_alnum ipv6_str).
Local Abbreviation produces := (produces unicode_decimal unicode_alnum ipv6_str).

(** X9. [format_range] raises exactly when one of its two arguments is
    negative or above [2^128 - 1], the largest IPv6 address. *)
Theorem format_range_raises (start end_ : Z) :
  format_range start end_ = None
  ↔ ¬ (0 ≤ start ≤ 2 ^ 128 - 1 ∧ 0 ≤ end_ ≤ 2 ^ 128 - 1).
Proof.
  unfold_format_range.
  destruct (address_str start) as [first|] eqn:Hs; simpl.
  - destruct (address_str end_) as [second|] eqn:He; simpl.
    + split; [done|]. intros []. split.
      * destruct (decide (0 ≤ start ≤ 2 ^ 128 - 1)) as [|Hn]; [done|].
        apply (address_str_None ipv6_str) in Hn.
        congruence.
      * destruct (decide (0 ≤ end_ ≤ 2 ^ 128 - 1)) as [|Hn]; [done|].
        apply (address_str_None ipv6_str) in Hn.
        congruence.
    + apply (address_str_None ipv6_str) in He. split; [|done]. by intros _ [_ ?].
  - apply (address_str_None ipv6_str) in Hs. split; [|done]. by intros _ [? _].
Qed.

(** X10. For two 32-bit values, [format_range] returns a line from which
    [parse_ranges] reads back exactly the two single-address ranges of
    its end points. *)
Theorem format_range_round_trip (start end_ : Z) :
  0 ≤ start ≤ 2 ^ 32 - 1 → 0 ≤ end_ ≤ 2 ^ 32 - 1 →
  ∃ line out,
    format_range start end_ = Some line
    ∧ parse_ranges line false = Some out
    ∧ ∀ r, r ∈ out ↔ r = (start, start) ∨ r = (end_, end_).
Proof.
  intros Hs He.
  destruct (format_range_32 unicode_decimal unicode_alnum ipv6_str start end_ Hs He)
    as (first & second & Hline & Hfind & Hp1 & Hp2 & _).
  eexists _, _. split_and!; [exact Hline|done|].
  intros r. rewrite elem_of_unmerged, Hfind. split.
  - intros (m & [->|[->|?%not_elem_of_nil]%elem_of_cons]%elem_of_cons & Hr);
      [left|right|done]; congruence.
  - intros [-> | ->]; [exists first|exists second];
      (split; [|done]); [by left|right; by left].
Qed.

(** X11. On 32-bit values [format_range] is injective: a line determines
    the start and the end it was made from. *)
Theorem format_range_injective (s1 e1 s2 e2 : Z) (line : str) :
  0 ≤ s1 ≤ 2 ^ 32 - 1 → 0 ≤ e1 ≤ 2 ^ 32 - 1 →
  0 ≤ s2 ≤ 2 ^ 32 - 1 → 0 ≤ e2 ≤ 2 ^ 32 - 1 →
  format_range s1 e1 = Some line → format_range s2 e2 = Some line →
  s1 = s2 ∧ e1 = e2.
Proof.
  intros Hs1 He1 Hs2 He2 H1 H2.
  destruct (format_range_32 unicode_decimal unicode_alnum ipv6_str s1 e1 Hs1 He1)
    as (a1 & b1 & Hl1 & _ & Ha1 & Hb1 & Hd1 & _).
  destruct (format_range_32 unicode_decimal unicode_alnum ipv6_str s2 e2 Hs2 He2)
    as (a2 & b2 & Hl2 & _ & Ha2 & Hb2 & Hd2 & _).
  rewrite H1 in Hl1. rewrite H2 in Hl2. injection Hl1 as ->.
  injection Hl2 as Heq.
  destruct (join_unique DASH _ _ _ _ Hd1 Hd2 Heq) as [-> ->].
  split; congruence.
Qed.

Lemma parsed_address_ranges text merge ranges :
  parse_ranges text merge = Some ranges → Forall address_range ranges.
Proof.
  rewrite parse_ranges_unfold, parse_ranges_with_unfold. destruct merge.
  - apply merge_ranges_Forall;
      [apply address_range_max|apply unmerged_address_ranges].
  - intros [= <-]. apply unmerged_address_ranges.
Qed.

Lemma render_address_ranges ranges :
  Forall address_range ranges →
  ∃ lines, render ranges = Some lines ∧ Forall2 rendered ranges lines.
Proof.
  intros Hall.
  assert (Forall (λ r : range, ∃ line, rendered r line) ranges) as H.
  { eapply Forall_impl; [exact Hall|]. intros [s e] (H0 & Hle & H32). simpl in *.
    destruct (format_range_32 unicode_decimal unicode_alnum ipv6_str s e)
      as (a & b & Hl & Hf & Ha & Hb & _ & Hn);
      [change ALL_ONES with (2 ^ 32 - 1); lia..|].
    exists (a ++ DASH :: b), a, b. by split_and!. }
  clear Hall. induction H as [|r ranges (line & Hline) _ (lines & Hr & H2)].
  - by exists [].
  - exists (line :: lines). split; [|by constructor].
    destruct Hline as (a & b & _ & Hf & _).
    unfold_render. simpl. rewrite Hf. simpl. by rewrite Hr.
Qed.

Lemma parse_args_path prog first rest :
  in_path (parse_args (prog :: first :: rest))
  = if starts_with_dash first then None else Some first.
Proof.
  unfold parse_args.
  change (drop 1 (prog :: first :: rest)) with (first :: rest).
  cbv beta iota zeta.
  destruct (starts_with_dash first); simpl negb; cbv iota beta.
  - by destruct (scan_args (first :: rest) None false).
  - by destruct (scan_args rest None false).
Qed.

(** X12. [main] ends in an uncaught exception in exactly these cases:
    without an argument, when the usage text cannot be printed; with
    arguments, when the first one starts with a dash (no input path,
    [open(None)]), when the input file cannot be read, when a non-empty
    [--out] path cannot be written, or when [print] fails on the report
    line or on the output.  In particular neither [parse_ranges] nor
    [format_range] raises on what they are given. *)
Theorem main_crash (w : world) (argv : list str) :
  crashes (main w argv)
  ↔ ((length argv < 2)%nat ∧ can_print w usage = false)
    ∨ ∃ prog first rest,
        argv = prog :: first :: rest
        ∧ (starts_with_dash first = true
           ∨ read_text w first = None
           ∨ ∃ text ranges lines,
               read_text w first = Some text
               ∧ parse_ranges text (merge (parse_args argv)) = Some ranges
               ∧ render ranges = Some lines
               ∧ match out_path (parse_args argv) with
                 | Some (c :: p) =>
                     can_write w (c :: p) (str_join [NEWLINE] lines ++ [NEWLINE])
                     = false
                     ∨ can_print w (report (length lines) (c :: p)) = false
                 | _ => can_print w (str_join [NEWLINE] lines) = false
                 end).
Proof.
  unfold crashes. unfold_main.
  destruct argv as [|prog [|first rest]].
  1,2: simpl length; simpl Nat.ltb; cbv iota;
    (destruct (can_print w usage); split;
     [intros [? [=]]
     |intros [[_ [=]]|(? & ? & ? & [=] & _)]
     |intros _; left; split; [lia|done]
     |intros _; by eexists]).
  change (length (prog :: first :: rest) <? 2)%nat with false.
  cbv iota. rewrite parse_args_path.
  split.
  - intros Hcrash. right. exists prog, first, rest. split; [done|].
    destruct (starts_with_dash first) eqn:Hdash; [by left|].
    destruct (read_text w first) as [text|] eqn:Hread; [|right; by left].
    do 2 right.
    destruct (parse_ranges_total unicode_decimal unicode_alnum text
                (merge (parse_args (prog :: first :: rest)))) as [ranges Hranges].
    pose proof (parsed_address_ranges _ _ _ Hranges) as Hall.
    rewrite Hranges in Hcrash.
    destruct (render_address_ranges ranges Hall) as (lines & Hlines & _).
    rewrite Hlines in Hcrash.
    exists text, ranges, lines. split_and!; [done..|].
    cbv zeta in Hcrash.
    destruct (out_path (parse_args (prog :: first :: rest))) as [[|c p]|].
    + destruct (can_print w _); [by destruct Hcrash as [? [=]]|done].
    + destruct (can_write w _ _); [|by left].
      destruct (can_print w _); [by destruct Hcrash as [? [=]]|by right].
    + destruct (can_print w _); [by destruct Hcrash as [? [=]]|done].
  - intros [[Hlen _]|(? & ? & ? & [= <- <- <-] & Hcase)]; [simpl in Hlen; lia|].
    destruct (starts_with_dash first); [by eexists|].
    destruct Hcase as [?|[->|(text & ranges & lines & -> & -> & -> & Hout)]];
      [done|by eexists|].
    destruct (out_path (parse_args (prog :: first :: rest))) as [[|c p]|].
    + rewrite Hout. by eexists.
    + cbv zeta. destruct Hout as [-> | Hout]; [by eexists|].
      rewrite Hout. destruct (can_write w _ _); by eexists.
    + rewrite Hout. by eexists.
Qed.

Lemma rendered_lines ranges lines :
  Forall2 rendered ranges lines → Forall (λ line, NEWLINE ∉ line) lines.
Proof.
  induction 1 as [|r line rs ls Hr _ IH]; constructor; [|done].
  by destruct Hr as (a & b & _ & _ & _ & _ & _ & ?).
Qed.

Lemma findall_join lines :
  findall (str_join [NEWLINE] lines) = lines ≫= findall.
Proof.
  induction lines as [|line lines IH]; [done|].
  destruct lines as [|line' lines].
  - simpl. by rewrite app_nil_r.
  - change (str_join [NEWLINE] (line :: line' :: lines))
      with (line ++ NEWLINE :: str_join [NEWLINE] (line' :: lines)).
    rewrite (findall_separator _ _ _ _ _
               (separator_NEWLINE unicode_decimal unicode_alnum)), IH.
    done.
Qed.

Lemma produces_inv w argv output :
  produces w argv output →
  ∃ first text ranges lines,
    argv !! 1%nat = Some first
    ∧ read_text w first = Some text
    ∧ parse_ranges text (merge (parse_args argv)) = Some ranges
    ∧ Forall2 rendered ranges lines
    ∧ output = str_join [NEWLINE] lines.
Proof.
  unfold_produces; unfold_main.
  destruct argv as [|prog [|first rest]];
    [simpl length; simpl Nat.ltb; cbv iota; destruct (can_print w usage);
     by intros [?|(? & ? & ?)]..|].
  change (length (prog :: first :: rest) <? 2)%nat with false.
  cbv iota. rewrite parse_args_path.
  destruct (starts_with_dash first); [by intros [?|(? & ? & ?)]|].
  destruct (read_text w first) as [text|] eqn:Hread; [|by intros [?|(? & ? & ?)]].
  destruct (parse_ranges_total unicode_decimal unicode_alnum text
              (merge (parse_args (prog :: first :: rest)))) as [ranges Hp].
  pose proof (parsed_address_ranges _ _ _ Hp) as Hall.
  rewrite Hp.
  destruct (render_address_ranges ranges Hall) as (lines & -> & Hl).
  intros Hmain. exists first, text, ranges, lines.
  split_and!; [done..|]. cbv zeta in Hmain.
  destruct (out_path _) as [[|c p]|].
  - destruct (can_print w _); [|by destruct Hmain as [?|(? & ? & ?)]].
    by destruct Hmain as [[= <-]|(? & ? & [=])].
  - destruct (can_write w _ _); [|by destruct Hmain as [?|(? & ? & ?)]].
    destruct (can_print w _); [|by destruct Hmain as [?|(? & ? & ?)]].
    destruct Hmain as [?|(? & ? & [= _ Heq _])]; [done|].
    by apply app_inv_tail in Heq.
  - destruct (can_print w _); [|by destruct Hmain as [?|(? & ? & ?)]].
    by destruct Hmain as [[= <-]|(? & ? & [=])].
Qed.

(** X13. The output of a run of [main] is empty when no range was
    found, and otherwise splits at its newlines into exactly one line per
    range of [parse_ranges], each the [format_range] of its range, in the
    same order. *)
Theorem main_output_lines (w : world) (argv : list str) (output : str) :
  produces w argv output →
  ∃ first text ranges,
    argv !! 1%nat = Some first
    ∧ read_text w first = Some text
    ∧ parse_ranges text (merge (parse_args argv)) = Some ranges
    ∧ (ranges = [] → output = [])
    ∧ (ranges ≠ [] →
       Forall2 (λ (r : range) line, format_range r.1 r.2 = Some line)
         ranges (str_split NEWLINE output)).
Proof.
  intros (first & text & ranges & lines & H1 & Hread & Hp & Hl & ->)%produces_inv.
  exists first, text, ranges. split_and!; [done..| |].
  - intros ->. by apply Forall2_nil_inv_l in Hl as ->.
  - intros Hne. rewrite str_split_join.
    + eapply Forall2_impl; [exact Hl|]. by intros r line (a & b & _ & ? & _).
    + intros ->. by apply Forall2_nil_inv_r in Hl.
    + by eapply rendered_lines.
Qed.

(** X14. Feeding the output of a run back to [parse_ranges] gives
    exactly the single-address ranges of the starts and ends of the
    ranges the run had found. *)
Theorem main_output_reparsed (w : world) (argv : list str) (output : str) :
  produces w argv output →
  ∃ first text ranges out,
    argv !! 1%nat = Some first
    ∧ read_text w first = Some text
    ∧ parse_ranges text (merge (parse_args argv)) = Some ranges
    ∧ parse_ranges output false = Some out
    ∧ ∀ p, p ∈ out
         ↔ ∃ r : range, r ∈ ranges ∧ (p = (r.1, r.1) ∨ p = (r.2, r.2)).
Proof.
  intros (first & text & ranges & lines & H1 & Hread & Hp & Hl & ->)%produces_inv.
  eexists first, text, ranges, _. split_and!; [done..|].
  intros p. rewrite elem_of_unmerged, findall_join. split.
  - intros (m & (line & Hm & Hline)%list_elem_of_bind & Hmp).
    apply list_elem_of_lookup in Hline as [i Hi].
    destruct (Forall2_lookup_r _ _ _ _ _ Hl Hi)
      as (r & Hr & a & b & _ & _ & Hf & Ha & Hb & _).
    exists r. split; [by eapply list_elem_of_lookup_2|].
    rewrite Hf in Hm.
    apply elem_of_cons in Hm as [->|[->|?%not_elem_of_nil]%elem_of_cons];
      [left|right|done]; congruence.
  - intros (r & [i Hi]%list_elem_of_lookup & Hpr).
    destruct (Forall2_lookup_l _ _ _ _ _ Hl Hi)
      as (line & Hline & a & b & _ & _ & Hf & Ha & Hb & _).
    apply list_elem_of_lookup_2 in Hline.
    destruct Hpr as [-> | ->]; [exists a|exists b];
      (split; [apply list_elem_of_bind; exists line; split; [|done];
               rewrite Hf|done]); [by left|right; by left].
Qed.

End Program.

(** * The extractor *)

Section Extraction.
Variable unicode_decimal : N → bool.
Variable unicode_alnum : N → bool.

Local Abbreviation findall := (findall unicode_decimal unicode_alnum).
Local Abbreviation parse_ranges := (parse_ranges unicode_decimal unicode_alnum).
Local Abbreviation separator := (separator unicode_decimal unicode_alnum).
Local Abbreviation candidate_shape := (candidate_shape unicode_decimal).

(** X15. The matches of [IP_CIDR_RE.findall] are pieces of the text, in
    order and without overlap (the text is a gap, the first match, a gap,
    the second match, ..., and a tail), and every one is four groups of
    one to three digits joined by dots, with an optional slash and one or
    two digits. *)
Theorem findall_pieces (text : str) :
  carved text (findall text) ∧ Forall candidate_shape (findall text).
Proof.
  split.
  - rewrite findall_unfold. by apply (scan_carved_from _ _ (length text)).
  - apply Forall_forall. intros m. apply findall_shape.
Qed.

(** X16. A separator (a character that is no word character, digit, dot
    or slash, such as a newline, a space or a comma) cuts the search in
    two: the matches of [text1 + sep + text2] are those of [text1]
    followed by those of [text2]. *)
Theorem findall_lines (text1 text2 : str) (sep : N) :
  separator sep →
  findall (text1 ++ sep :: text2) = findall text1 ++ findall text2.
Proof. apply findall_separator. Qed.

(** X17. The pattern misses nothing that is set apart: a candidate of
    ASCII digits between two separators is found, whole, between the
    matches of the text before it and those of the text after it. *)
Theorem findall_finds_delimited
    (before after_ o0 o1 o2 o3 : str) (p : option str) (sep1 sep2 : N) :
  separator sep1 → separator sep2 →
  Forall (ascii_group 3) [o0; o1; o2; o3] →
  from_option (ascii_group 2) True p →
  findall (before ++ sep1 :: candidate o0 o1 o2 o3 p ++ sep2 :: after_)
  = findall before ++ candidate o0 o1 o2 o3 p :: findall after_.
Proof.
  intros H1 H2 Ho Hp.
  rewrite (findall_separator _ _ before sep1 _ H1).
  rewrite (findall_separator _ _ (candidate o0 o1 o2 o3 p) sep2 _ H2).
  by rewrite findall_alone.
Qed.

(** X18. [parse_ranges] does not depend on the order of the lines: the
    two orders of two texts joined by a separator give the same result,
    and without merging the result holds exactly the ranges of either
    text. *)
Theorem parse_ranges_lines (text1 text2 : str) (sep : N) (merge : bool) :
  separator sep →
  parse_ranges (text1 ++ sep :: text2) merge
  = parse_ranges (text2 ++ sep :: text1) merge
  ∧ ∃ out out1 out2,
      parse_ranges (text1 ++ sep :: text2) false = Some out
      ∧ parse_ranges text1 false = Some out1
      ∧ parse_ranges text2 false = Some out2
      ∧ ∀ r, r ∈ out ↔ r ∈ out1 ∨ r ∈ out2.
Proof.
  intros Hsep. split.
  - rewrite !parse_ranges_unfold, !parse_ranges_with_unfold.
    rewrite (collect_ext (findall (text1 ++ sep :: text2))
                         (findall (text2 ++ sep :: text1))); [done|].
    intros r. rewrite !(findall_separator _ _ _ sep _ Hsep).
    split; intros (m & [?|?]%elem_of_app & ?); exists m;
      (split; [apply elem_of_app; auto|done]).
  - eexists _, _, _. split_and!; [done..|].
    intros r. rewrite !elem_of_unmerged, (findall_separator _ _ _ sep _ Hsep).
    split.
    + intros (m & [?|?]%elem_of_app & ?); [left|right]; by exists m.
    + intros [(m & ? & ?)|(m & ? & ?)]; exists m;
        (split; [apply elem_of_app; auto|done]).
Qed.

End Extraction.

(** * Worked instances of the further properties *)

Lemma merge_ranges_contains_input_witness :
  canonical [(1, 5); (3, 4); (6, 9); (20, 30)]
  ∧ ∃ out, merge_ranges [(1, 5); (3, 4); (6, 9); (20, 30)] = Some out
      ∧ ∀ r, r ∈ [(1, 5); (3, 4); (6, 9); (20, 30)] → ∃ o, o ∈ out ∧ inside r o.
Proof.
  assert (canonical [(1, 5); (3, 4); (6, 9); (20, 30)]) as Hc.
  { repeat constructor; unfold key_le; simpl; lia. }
  split; [exact Hc|].
  exact (merge_ranges_contains_input _ Hc).
Defined.

Lemma cidr_block_witness :
  Forall plain_octet [str_of "192"; str_of "168"; str_of "1"; str_of "77"]
  ∧ prefix_in_range (str_of "20")
  ∧ let address := address_value (str_of "192") (str_of "168") (str_of "1")
                     (str_of "77") in
    let size := 2 ^ (32 - int_of_digits (str_of "20")) in
    ∃ start end_,
      try_parse (candidate (str_of "192") (str_of "168") (str_of "1")
                   (str_of "77") (Some (str_of "20"))) = Some (start, end_)
      ∧ start = address - address mod size
      ∧ end_ = start + size - 1
      ∧ start ≤ address ≤ end_.
Proof.
  assert (Forall plain_octet [str_of "192"; str_of "168"; str_of "1"; str_of "77"])
    as Ho by (apply Forall_four; split_and!; apply plain_octet_iff; by eexists).
  assert (prefix_in_range (str_of "20")) as Hq
    by (split; [split; [reflexivity|by vm_compute]|simpl; lia]).
  split_and!; [exact Ho|exact Hq|].
  exact (cidr_block _ _ _ _ _ Ho Hq).
Defined.

Lemma prefix_leading_zero_witness :
  IPv4Address (str_of "10.1.2.3") = Some 167838211
  ∧ is_ascii_digit 56 = true
  ∧ try_parse (str_of "10.1.2.3" ++ [SLASH; ZERO; 56%N])
    = try_parse (str_of "10.1.2.3" ++ [SLASH; 56%N]).
Proof.
  assert (IPv4Address (str_of "10.1.2.3") = Some 167838211) as Ha by reflexivity.
  assert (is_ascii_digit 56 = true) as Hd by reflexivity.
  split_and!; [exact Ha|exact Hd|].
  exact (prefix_leading_zero _ _ _ Ha Hd).
Defined.

Lemma parse_ranges_same_ranges_witness :
  (∀ r, (∃ m, m ∈ findall ascii_only ascii_only (str_of "1.1.1.1 2.2.2.2")
              ∧ try_parse m = Some r)
        ↔ (∃ m, m ∈ findall ascii_only ascii_only
                      (str_of "2.2.2.2, 1.1.1.1, 2.2.2.2")
                ∧ try_parse m = Some r))
  ∧ parse_ranges ascii_only ascii_only (str_of "1.1.1.1 2.2.2.2") true
    = parse_ranges ascii_only ascii_only (str_of "2.2.2.2, 1.1.1.1, 2.2.2.2") true.
Proof.
  assert (∀ r, (∃ m, m ∈ findall ascii_only ascii_only (str_of "1.1.1.1 2.2.2.2")
                     ∧ try_parse m = Some r)
               ↔ (∃ m, m ∈ findall ascii_only ascii_only
                             (str_of "2.2.2.2, 1.1.1.1, 2.2.2.2")
                       ∧ try_parse m = Some r)) as Hsame.
  { intros r.
    change (findall ascii_only ascii_only (str_of "1.1.1.1 2.2.2.2"))
      with [str_of "1.1.1.1"; str_of "2.2.2.2"].
    change (findall ascii_only ascii_only (str_of "2.2.2.2, 1.1.1.1, 2.2.2.2"))
      with [str_of "2.2.2.2"; str_of "1.1.1.1"; str_of "2.2.2.2"].
    split; intros (m & Hm & Hr); exists m; (split; [|exact Hr]);
      rewrite !elem_of_cons, elem_of_nil in Hm;
      rewrite !elem_of_cons, elem_of_nil; tauto. }
  split; [exact Hsame|].
  exact (parse_ranges_same_ranges ascii_only ascii_only _ _ true Hsame).
Defined.

Lemma findall_lines_witness :
  separator ascii_only ascii_only NEWLINE
  ∧ findall ascii_only ascii_only
      (str_of "a 10.0.0.1" ++ NEWLINE :: str_of "10.0.0.0/8 b")
    = findall ascii_only ascii_only (str_of "a 10.0.0.1")
      ++ findall ascii_only ascii_only (str_of "10.0.0.0/8 b").
Proof.
  assert (separator ascii_only ascii_only NEWLINE) as Hsep
    by (split_and!; [reflexivity|reflexivity|discriminate|discriminate]).
  split; [exact Hsep|].
  exact (findall_lines ascii_only ascii_only _ _ _ Hsep).
Defined.

Lemma findall_finds_delimited_witness :
  separator ascii_only ascii_only 32%N
  ∧ separator ascii_only ascii_only 44%N
  ∧ Forall (ascii_group 3) [str_of "10"; str_of "0"; str_of "0"; str_of "1"]
  ∧ from_option (ascii_group 2) True (Some (str_of "8"))
  ∧ findall ascii_only ascii_only
      (str_of "srv1.0" ++ 32%N
         :: candidate (str_of "10") (str_of "0") (str_of "0") (str_of "1")
              (Some (str_of "8")) ++ 44%N :: str_of " 1.2.3.4x")
    = findall ascii_only ascii_only (str_of "srv1.0")
      ++ candidate (str_of "10") (str_of "0") (str_of "0") (str_of "1")
           (Some (str_of "8"))
      :: findall ascii_only ascii_only (str_of " 1.2.3.4x").
Proof.
  assert (separator ascii_only ascii_only 32%N) as H1
    by (split_and!; [reflexivity|reflexivity|discriminate|discriminate]).
  assert (separator ascii_only ascii_only 44%N) as H2
    by (split_and!; [reflexivity|reflexivity|discriminate|discriminate]).
  assert (Forall (ascii_group 3)
            [str_of "10"; str_of "0"; str_of "0"; str_of "1"]) as Ho
    by (apply Forall_four; split_and!;
        (split; [simpl; lia|repeat constructor])).
  assert (from_option (ascii_group 2) True (Some (str_of "8"))) as Hp
    by (split; [simpl; lia|repeat constructor]).
  split_and!; [exact H1|exact H2|exact Ho|exact Hp|].
  exact (findall_finds_delimited ascii_only ascii_only _ _ _ _ _ _ _ _ _
           H1 H2 Ho Hp).
Defined.

Lemma parse_ranges_lines_witness :
  separator ascii_only ascii_only NEWLINE
  ∧ parse_ranges ascii_only ascii_only
      (str_of "10.0.0.1" ++ NEWLINE :: str_of "10.0.0.0/8") true
    = parse_ranges ascii_only ascii_only
        (str_of "10.0.0.0/8" ++ NEWLINE :: str_of "10.0.0.1") true
  ∧ ∃ out out1 out2,
      parse_ranges ascii_only ascii_only
        (str_of "10.0.0.1" ++ NEWLINE :: str_of "10.0.0.0/8") false = Some out
      ∧ parse_ranges ascii_only ascii_only (str_of "10.0.0.1") false = Some out1
      ∧ parse_ranges ascii_only ascii_only (str_of "10.0.0.0/8") false = Some out2
      ∧ ∀ r, r ∈ out ↔ r ∈ out1 ∨ r ∈ out2.
Proof.
  assert (separator ascii_only ascii_only NEWLINE) as Hsep
    by (split_and!; [reflexivity|reflexivity|discriminate|discriminate]).
  split; [exact Hsep|].
  exact (parse_ranges_lines ascii_only ascii_only _ _ _ true Hsep).
Defined.

Lemma format_range_round_trip_witness :
  0 ≤ 167772160 ≤ 2 ^ 32 - 1 ∧ 0 ≤ 167772415 ≤ 2 ^ 32 - 1
  ∧ ∃ line out,
      format_range (λ _, []) 167772160 167772415 = Some line
      ∧ parse_ranges ascii_only ascii_only line false = Some out
      ∧ ∀ r, r ∈ out
             ↔ r = (167772160, 167772160) ∨ r = (167772415, 167772415).
Proof.
  assert (0 ≤ 167772160 ≤ 2 ^ 32 - 1) as H1 by lia.
  assert (0 ≤ 167772415 ≤ 2 ^ 32 - 1) as H2 by lia.
  split; [exact H1|split; [exact H2|]].
  exact (format_range_round_trip ascii_only ascii_only (λ _, []) _ _ H1 H2).
Defined.

Lemma format_range_injective_witness :
  0 ≤ 167772160 ≤ 2 ^ 32 - 1 ∧ 0 ≤ 167772415 ≤ 2 ^ 32 - 1
  ∧ format_range (λ _, []) 167772160 167772415
    = Some (str_of "10.0.0.0-10.0.0.255")
  ∧ 167772160 = 167772160 ∧ 167772415 = 167772415.
Proof.
  assert (0 ≤ 167772160 ≤ 2 ^ 32 - 1) as H1 by lia.
  assert (0 ≤ 167772415 ≤ 2 ^ 32 - 1) as H2 by lia.
  assert (format_range (λ _, []) 167772160 167772415
          = Some (str_of "10.0.0.0-10.0.0.255")) as Hf by reflexivity.
  split; [exact H1|split; [exact H2|split; [exact Hf|]]].
  exact (format_range_injective ascii_only ascii_only (λ _, []) _ _ _ _ _
           H1 H2 H1 H2 Hf Hf).
Defined.

Lemma main_output_lines_witness :
  produces ascii_only ascii_only (λ _, [])
    (one_file (str_of "in.txt") (str_of "a 10.0.0.1, 10.0.0.0/30 300.1.1.1"))
    [str_of "ip_extract.py"; str_of "in.txt"; str_of "--merge"]
    (str_of "10.0.0.0-10.0.0.3")
  ∧ ∃ first text ranges,
      [str_of "ip_extract.py"; str_of "in.txt"; str_of "--merge"] !! 1%nat
      = Some first
      ∧ read_text
          (one_file (str_of "in.txt") (str_of "a 10.0.0.1, 10.0.0.0/30 300.1.1.1"))
          first = Some text
      ∧ parse_ranges ascii_only ascii_only text
          (merge (parse_args
                    [str_of "ip_extract.py"; str_of "in.txt"; str_of "--merge"]))
        = Some ranges
      ∧ (ranges = [] → str_of "10.0.0.0-10.0.0.3" = [])
      ∧ (ranges ≠ [] →
         Forall2 (λ (r : range) line, format_range (λ _, []) r.1 r.2 = Some line)
           ranges (str_split NEWLINE (str_of "10.0.0.0-10.0.0.3"))).
Proof.
  assert (produces ascii_only ascii_only (λ _, [])
            (one_file (str_of "in.txt")
               (str_of "a 10.0.0.1, 10.0.0.0/30 300.1.1.1"))
            [str_of "ip_extract.py"; str_of "in.txt"; str_of "--merge"]
            (str_of "10.0.0.0-10.0.0.3")) as Hrun
    by (left; vm_compute; reflexivity).
  split; [exact Hrun|].
  exact (main_output_lines ascii_only ascii_only (λ _, []) _ _ _ Hrun).
Defined.

Lemma main_output_reparsed_witness :
  produces ascii_only ascii_only (λ _, [])
    (one_file (str_of "in.txt") (str_of "a 10.0.0.1, 10.0.0.0/30 300.1.1.1"))
    [str_of "ip_extract.py"; str_of "in.txt"; str_of "--out"; str_of "out.txt"]
    (str_of "10.0.0.0-10.0.0.3" ++ NEWLINE :: str_of "10.0.0.1-10.0.0.1")
  ∧ ∃ first text ranges out,
      [str_of "ip_extract.py"; str_of "in.txt"; str_of "--out"; str_of "out.txt"]
        !! 1%nat = Some first
      ∧ read_text
          (one_file (str_of "in.txt") (str_of "a 10.0.0.1, 10.0.0.0/30 300.1.1.1"))
          first = Some text
      ∧ parse_ranges ascii_only ascii_only text
          (merge (parse_args
                    [str_of "ip_extract.py"; str_of "in.txt"; str_of "--out";
                     str_of "out.txt"]))
        = Some ranges
      ∧ parse_ranges ascii_only ascii_only
          (str_of "10.0.0.0-10.0.0.3" ++ NEWLINE :: str_of "10.0.0.1-10.0.0.1")
          false = Some out
      ∧ ∀ p, p ∈ out
           ↔ ∃ r : range, r ∈ ranges ∧ (p = (r.1, r.1) ∨ p = (r.2, r.2)).
Proof.
  assert (produces ascii_only ascii_only (λ _, [])
            (one_file (str_of "in.txt")
               (str_of "a 10.0.0.1, 10.0.0.0/30 300.1.1.1"))
            [str_of "ip_extract.py"; str_of "in.txt"; str_of "--out";
             str_of "out.txt"]
            (str_of "10.0.0.0-10.0.0.3" ++ NEWLINE :: str_of "10.0.0.1-10.0.0.1"))
    as Hrun.
  { right. exists (str_of "out.txt"), (str_of "Wrote 2 ranges to out.txt").
    vm_compute. reflexivity. }
  split; [exact Hrun|].
  exact (main_output_reparsed ascii_only ascii_only (λ _, []) _ _ _ Hrun).
Defined.
